(** * minitorch: the Module / Parameter tree and the list combinator zipWith

    A shallow embedding of [minitorch/module.py] and of [zipWith] from
    [minitorch/operators.py].

    Python objects have identity and are mutated in place, so Modules and
    Parameters live in a store and are referred to by address.  A Python
    [dict] keeps its keys in insertion order, which the traversals expose;
    it is an association list here, written to with [dict_set]. *)

From Stdlib Require Import ZArith String Ascii.
From stdpp Require Import gmap strings list.

Open Scope Z_scope.
Open Scope nat_scope.

(** ** Python dictionaries: insertion-ordered, unique keys *)

Section dict.
Context {V : Type}.

(** [key in d] and [d[key]]. *)
Fixpoint dict_get (d : list (string * V)) (key : string) : option V :=
  match d with
  | [] => None
  | (k, v) :: d' => if decide (k = key) then Some v else dict_get d' key
  end.

(** [d[key] = val]: an existing key keeps its place, a new one goes last. *)
Fixpoint dict_set (d : list (string * V)) (key : string) (val : V)
  : list (string * V) :=
  match d with
  | [] => [(key, val)]
  | (k, v) :: d' =>
      if decide (k = key) then (key, val) :: d'
      else (k, v) :: dict_set d' key val
  end.

Definition dict_keys (d : list (string * V)) : list string := map fst d.
Definition dict_values (d : list (string * V)) : list V := map snd d.
End dict.

(** ** Values *)

Definition addr := nat.   (* identity of a Module object *)
Definition ploc := nat.   (* identity of a Parameter object *)

(** Modelled from the spec: the class of the values a Parameter is designed
    to wrap (minitorch's Variable) is not part of these sources.  The spec
    describes it as a payload that optionally exposes a mark-trainable
    operation ([requires_grad_]) and an optional name field. *)
Record VariableObj := mkVariable {
  has_requires_grad_ : bool;        (* hasattr(x, "requires_grad_") *)
  requires_grad : bool;             (* what requires_grad_(b) last set *)
  var_name : option string;         (* x.name, when assigned *)
  var_data : Z
}.

Definition requires_grad_ (b : bool) (x : VariableObj) : VariableObj :=
  mkVariable (has_requires_grad_ x) b (var_name x) (var_data x).

Definition set_var_name (s : string) (x : VariableObj) : VariableObj :=
  mkVariable (has_requires_grad_ x) (requires_grad x) (Some s) (var_data x).

(** The values that can be bound to a field or wrapped by a Parameter. *)
Inductive PyVal :=
| VNone
| VBool (b : bool)
| VNum (z : Z)
| VStr (s : string)
| VVar (x : VariableObj)
| VParam (p : ploc)
| VModule (a : addr).

(** [class Parameter]: its two instance fields. *)
Record ParameterObj := mkParameter {
  value : PyVal;
  name : option string
}.

(** [class Module].  [__dict__] holds the two stores under their reserved
    keys and everything else ([training], plain fields) in [attrs];
    [cls_name] is [self.__class__.__name__]. *)
Record ModuleObj := mkModule {
  cls_name : string;
  _modules : list (string * addr);
  _parameters : list (string * ploc);
  attrs : list (string * PyVal)
}.

Record Heap := mkHeap {
  mods : gmap addr ModuleObj;
  pars : gmap ploc ParameterObj
}.

Definition empty_heap : Heap := mkHeap ∅ ∅.

Definition put_module (h : Heap) (a : addr) (m : ModuleObj) : Heap :=
  mkHeap (<[a := m]> (mods h)) (pars h).

Definition put_parameter (h : Heap) (p : ploc) (o : ParameterObj) : Heap :=
  mkHeap (mods h) (<[p := o]> (pars h)).

(** Exceptions, and the outcome of a call that may raise.  A raised
    exception ends the run that is modelled: the store it leaves behind is
    not followed further. *)
Inductive exn :=
| TypeError
| AssertionError
| KeyError
| RecursionError
| Stuck.   (* not a Python exception: an address that is not in the store *)

Inductive Result (A : Type) :=
| Ok (a : A)
| Raise (e : exn).
Arguments Ok {A} a.
Arguments Raise {A} e.

Definition bind {A B} (r : Result A) (k : A -> Result B) : Result B :=
  match r with
  | Ok a => k a
  | Raise e => Raise e
  end.

Notation "'let!' x ':=' r 'in' k" := (bind r (fun x => k))
  (at level 10, x pattern, r at level 100, k at level 200).

(** ** Module: construction, registration, lookup *)

(** [Module.__init__]: the three assignments go through [__setattr__], none
    of them with a Parameter or a Module, so all land in [__dict__]. *)
Definition Module_init (cls : string) : ModuleObj :=
  mkModule cls [] [] [("training", VBool true)].

(** [Module.modules] and [Module.named_children]. *)
Definition Module_modules (m : ModuleObj) : list addr :=
  dict_values (_modules m).

Definition Module_named_children (m : ModuleObj) : list (string * addr) :=
  _modules m.

(** Names defined in the body of [class Module], and those every instance
    inherits from [object]. *)
Definition Module_methods : list string :=
  ["__init__"; "modules"; "named_children"; "train"; "eval";
   "named_parameters"; "parameters"; "add_parameter"; "__setattr__";
   "__getattr__"; "__call__"; "__repr__"].

Definition object_names : list string :=
  ["__class__"; "__dict__"; "__doc__"; "__module__"; "__weakref__";
   "__annotations__"; "__delattr__"; "__dir__"; "__eq__"; "__format__";
   "__ge__"; "__getattribute__"; "__getstate__"; "__gt__"; "__hash__";
   "__init_subclass__"; "__le__"; "__lt__"; "__ne__"; "__new__";
   "__reduce__"; "__reduce_ex__"; "__sizeof__"; "__str__";
   "__subclasshook__"].

(** Keys that [object.__setattr__] does not simply add to [__dict__] as one
    more field: the two stores themselves and the special attributes of
    the runtime.  Rebinding them is outside this model. *)
Definition reserved_keys : list string :=
  ["_modules"; "_parameters"] ++ object_names.

(** [Module.__setattr__].  [None]: the binding is outside the model (a
    reserved key in the last branch). *)
Definition Module_setattr (m : ModuleObj) (key : string) (val : PyVal)
  : option ModuleObj :=
  match val with
  | VParam p =>
      Some (mkModule (cls_name m) (_modules m)
                     (dict_set (_parameters m) key p) (attrs m))
  | VModule a =>
      Some (mkModule (cls_name m) (dict_set (_modules m) key a)
                     (_parameters m) (attrs m))
  | _ =>
      if bool_decide (key ∈ reserved_keys) then None
      else Some (mkModule (cls_name m) (_modules m) (_parameters m)
                          (dict_set (attrs m) key val))
  end.

(** [Module.__getattr__]: called by the runtime only when the ordinary
    attribute lookup found nothing. *)
Definition Module_getattr (m : ModuleObj) (key : string) : PyVal :=
  match dict_get (_parameters m) key with
  | Some p => VParam p
  | None =>
      match dict_get (_modules m) key with
      | Some a => VModule a
      | None => VNone
      end
  end.

(** What reading [m.key] can produce. *)
Inductive Attr :=
| AVal (v : PyVal)                          (* a field, or the fallback *)
| AModules (d : list (string * addr))       (* m._modules *)
| AParameters (d : list (string * ploc))    (* m._parameters *)
| AClass (key : string).                    (* resolved on the class *)

(** The ordinary lookup: the instance's [__dict__], then the class. *)
Definition plain_lookup (m : ModuleObj) (key : string) : option Attr :=
  if decide (key = "_modules") then Some (AModules (_modules m))
  else if decide (key = "_parameters") then Some (AParameters (_parameters m))
  else match dict_get (attrs m) key with
       | Some v => Some (AVal v)
       | None =>
           if bool_decide (key ∈ Module_methods ++ object_names)
           then Some (AClass key) else None
       end.

(** Reading [m.key]: the ordinary lookup, then [__getattr__]. *)
Definition Module_getattribute (m : ModuleObj) (key : string) : Attr :=
  match plain_lookup m key with
  | Some a => a
  | None => AVal (Module_getattr m key)
  end.





(** ** Parameter *)

(** [hasattr(x, "requires_grad_")].  Numbers, strings, None and Parameter
    instances have no such attribute.  For a Module the lookup ends in
    [Module.__getattr__], which returns None where other classes raise
    AttributeError, so [hasattr] is true whatever the Module holds. *)
Definition has_requires_grad_attr (x : PyVal) : bool :=
  match x with
  | VVar v => has_requires_grad_ v
  | VModule _ => true
  | _ => false
  end.

(** Python truthiness of [self.name] (None or a string). *)
Definition name_is_truthy (n : option string) : bool :=
  match n with
  | Some s => negb (bool_decide (s = ""))
  | None => false
  end.

(** Calling a value with one argument, as in [x.requires_grad_(True)] once
    the attribute has been read.  Only a Module is callable among [PyVal]:
    [Module.__call__] returns [self.forward(...)], and reading [forward]
    goes through the lookup above.  Neither [requires_grad_] nor [forward]
    is a name of the class, so the lookups made here never end in [AClass].
    [depth] is the interpreter's recursion limit. *)
Fixpoint call_value (depth : nat) (h : Heap) (f : Attr) : Result PyVal :=
  match f with
  | AVal (VModule a) =>
      match depth with
      | 0 => Raise RecursionError
      | S depth' =>
          match mods h !! a with
          | Some m => call_value depth' h (Module_getattribute m "forward")
          | None => Raise Stuck
          end
      end
  | _ => Raise TypeError
  end.

(** The body shared by [Parameter.__init__] and [Parameter.update], after
    [self.value = x]: returns the payload as the Parameter then holds it. *)
Definition mark_trainable (depth : nat) (h : Heap) (x : PyVal)
    (self_name : option string) : Result (PyVal * Heap) :=
  if has_requires_grad_attr x then
    match x with
    | VVar v =>
        let v := requires_grad_ true v in
        Ok (VVar (if name_is_truthy self_name
                  then set_var_name (default "" self_name) v else v), h)
    | VModule a =>
        match mods h !! a with
        | Some m =>
            let! _ := call_value depth h (Module_getattribute m "requires_grad_") in
            if name_is_truthy self_name then
              match Module_setattr m "name" (VStr (default "" self_name)) with
              | Some m' => Ok (x, put_module h a m')
              | None => Raise Stuck
              end
            else Ok (x, h)
        | None => Raise Stuck
        end
    | _ => Ok (x, h)
    end
  else Ok (x, h).

(** [Parameter.__init__]: the new object's fields. *)
Definition Parameter_init (depth : nat) (h : Heap) (x : PyVal)
    (name : option string) : Result (ParameterObj * Heap) :=
  let! (x', h') := mark_trainable depth h x name in
  Ok (mkParameter x' name, h').

(** [Parameter(x, name)]: allocation of a new object, then [__init__]. *)
Definition Parameter_new (depth : nat) (h : Heap) (x : PyVal)
    (name : option string) : Result (ploc * Heap) :=
  let! (o, h') := Parameter_init depth h x name in
  let p := fresh (dom (pars h')) in
  Ok (p, put_parameter h' p o).

(** [Parameter.update]. *)
Definition Parameter_update (depth : nat) (h : Heap) (self : ploc)
    (x : PyVal) : Result Heap :=
  match pars h !! self with
  | Some o =>
      let! (x', h') := mark_trainable depth h x (name o) in
      Ok (put_parameter h' self (mkParameter x' (name o)))
  | None => Raise Stuck
  end.

(** [Module.add_parameter]. *)
Definition Module_add_parameter (depth : nat) (h : Heap) (self : addr)
    (k : string) (v : PyVal) : Result (ploc * Heap) :=
  let! (val, h') := Parameter_new depth h v (Some k) in
  match mods h' !! self with
  | Some m =>
      Ok (val, put_module h' self
                 (mkModule (cls_name m) (_modules m)
                           (dict_set (_parameters m) k val) (attrs m)))
  | None => Raise Stuck
  end.

(** ** Module: the traversals

    Each [while] loop takes [fuel], a bound on its iterations, and each
    traversal takes [depth], the recursion limit, which matters only where
    a call ends in [Module.__call__]. *)

(** What a call does within the bound: it returns, it raises, or its loop
    is still running. *)
Inductive Outcome (A : Type) :=
| Returns (a : A)
| Raises (e : exn)
| Diverges.
Arguments Returns {A} a.
Arguments Raises {A} e.
Arguments Diverges {A}.

#[global] Instance Outcome_bind : MBind Outcome := λ A B k o,
  match o with
  | Returns a => k a
  | Raises e => Raises e
  | Diverges => Diverges
  end.

(** An object that must be in the store. *)
Definition found {A : Type} (o : option A) : Outcome A :=
  match o with
  | Some a => Returns a
  | None => Raises Stuck
  end.

Definition raised {A : Type} (r : Result A) : Outcome A :=
  match r with
  | Ok a => Returns a
  | Raise e => Raises e
  end.

(** [self.key = val] on the Module at [self]. *)
Definition setattr (h : Heap) (self : addr) (key : string) (val : PyVal)
  : option Heap :=
  m ← mods h !! self;
  m' ← Module_setattr m key val;
  Some (put_module h self m').

(** [Module()], or [cls()] for a subclass that only differs by its name:
    a new object, then [__init__]. *)
Definition Module_new (h : Heap) (cls : string) : addr * Heap :=
  let a := fresh (dom (mods h)) in (a, put_module h a (Module_init cls)).

(** [self.training = b], which [__setattr__] hands to [__dict__]. *)
Definition set_training (b : bool) (h : Heap) (a : addr) : option Heap :=
  setattr h a "training" (VBool b).

(** Reading [m.training] on the Module at [a]. *)
Definition training (h : Heap) (a : addr) : option Attr :=
  m ← mods h !! a; Some (Module_getattribute m "training").

(** [self.key()], up to the point where the body of the method starts.
    The attribute is read first, and only a name resolved on the class is
    the method; a plain field of that name is what the read returns
    instead, and it is then called like any other value.  No value of this
    model returns from a call, nor would it give the loop a list.
    (Subclasses are taken not to redefine the methods of Module.) *)
Definition method_lookup (depth : nat) (h : Heap) (m : ModuleObj)
    (key : string) : Result unit :=
  match Module_getattribute m key with
  | AClass _ => Ok tt
  | other => let! _ := call_value depth h other in Raise TypeError
  end.

(** The loop of [train] ([b = true]) and [eval] ([b = false]).  [visited]
    logs the dequeued Modules in order; the Python code keeps no such log,
    it is here to state which Modules the loop touches and how often. *)
Fixpoint mode_loop (depth fuel : nat) (b : bool) (h : Heap)
    (to_set : list addr) (visited : list addr) : Outcome (Heap * list addr) :=
  match to_set with
  | [] => Returns (h, visited)
  | mChild :: to_set' =>
      match fuel with
      | 0 => Diverges
      | S fuel' =>
          h' ← found (set_training b h mChild);
          m ← found (mods h' !! mChild);
          _ ← raised (method_lookup depth h' m "modules");
          mode_loop depth fuel' b h' (to_set' ++ Module_modules m)
                    (visited ++ [mChild])
      end
  end.

Definition set_mode (depth fuel : nat) (b : bool) (h : Heap) (self : addr)
  : Outcome (Heap * list addr) :=
  h' ← found (set_training b h self);
  m ← found (mods h' !! self);
  _ ← raised (method_lookup depth h' m "modules");
  mode_loop depth fuel b h' (Module_modules m) [].

Definition Module_train (depth fuel : nat) (h : Heap) (self : addr) :=
  set_mode depth fuel true h self.

Definition Module_eval (depth fuel : nat) (h : Heap) (self : addr) :=
  set_mode depth fuel false h self.

(** [f"{name}.{n}"]. *)
Definition dotted (name n : string) : string := name +:+ "." +:+ n.

Fixpoint named_parameters_loop (depth fuel : nat) (h : Heap)
    (to_add : list (string * addr)) (params : list (string * ploc))
  : Outcome (list (string * ploc)) :=
  match to_add with
  | [] => Returns params
  | (name, mChild) :: to_add' =>
      match fuel with
      | 0 => Diverges
      | S fuel' =>
          m ← found (mods h !! mChild);
          let params :=
            params ++ map (λ '(n, p), (dotted name n, p)) (_parameters m) in
          _ ← raised (method_lookup depth h m "named_children");
          let extended_names :=
            map (λ '(n, c), (dotted name n, c)) (Module_named_children m) in
          named_parameters_loop depth fuel' h (to_add' ++ extended_names) params
      end
  end.

(** [Module.named_parameters]. *)
Definition Module_named_parameters (depth fuel : nat) (h : Heap) (self : addr)
  : Outcome (list (string * ploc)) :=
  m ← found (mods h !! self);
  _ ← raised (method_lookup depth h m "named_children");
  named_parameters_loop depth fuel h (Module_named_children m) (_parameters m).

Fixpoint parameters_loop (depth fuel : nat) (h : Heap) (to_add : list addr)
    (params : list ploc) : Outcome (list ploc) :=
  match to_add with
  | [] => Returns params
  | mChild :: to_add' =>
      match fuel with
      | 0 => Diverges
      | S fuel' =>
          m ← found (mods h !! mChild);
          let params := params ++ dict_values (_parameters m) in
          _ ← raised (method_lookup depth h m "modules");
          parameters_loop depth fuel' h (to_add' ++ Module_modules m) params
      end
  end.

(** [Module.parameters]. *)
Definition Module_parameters (depth fuel : nat) (h : Heap) (self : addr)
  : Outcome (list ploc) :=
  m ← found (mods h !! self);
  _ ← raised (method_lookup depth h m "modules");
  parameters_loop depth fuel h (Module_modules m) (dict_values (_parameters m)).

(** ** Module: rendering *)

Definition nl : string := String (ascii_of_nat 10) "".

(** [s.split("\n")]: never empty. *)
Fixpoint split_nl (s : string) : list string :=
  match s with
  | EmptyString => [""]
  | String c s' =>
      if decide (c = ascii_of_nat 10) then "" :: split_nl s'
      else match split_nl s' with
           | line :: lines => String c line :: lines
           | [] => [String c ""]
           end
  end.

(** [n * " "]. *)
Fixpoint spaces (n : nat) : string :=
  match n with
  | 0 => ""
  | S n' => String " " (spaces n')
  end.

(** The local function [_addindent] of [Module.__repr__]. *)
Definition _addindent (s_ : string) (numSpaces : nat) : string :=
  match split_nl s_ with
  | [] | [_] => s_
  | first :: s2 =>
      let s2 := map (λ line, spaces numSpaces +:+ line) s2 in
      let s := String.concat nl s2 in
      first +:+ nl +:+ s
  end.

(** [Module.__repr__]; [depth] bounds the nesting of the recursive calls. *)
Fixpoint Module_repr (depth : nat) (h : Heap) (self : addr) : option string :=
  match depth with
  | 0 => None
  | S depth' =>
      m ← mods h !! self;
      child_lines ←
        mapM (λ '(key, module),
                mod_str ← Module_repr depth' h module;
                Some ("(" +:+ key +:+ "): " +:+ _addindent mod_str 2))
             (_modules m);
      let main_str := cls_name m +:+ "(" in
      let main_str :=
        match child_lines with
        | [] => main_str
        | _ => main_str +:+ nl +:+ "  "
                 +:+ String.concat (nl +:+ "  ") child_lines +:+ nl
        end in
      Some (main_str +:+ ")")
  end.

(** ** operators.zipWith *)

Definition zipWith {A B C : Type} (fn : A → B → C) (ls1 : list A)
    (ls2 : list B) : Result (list C) :=
  if decide (length ls1 = length ls2) then
    Ok (foldl (λ new_ls '(e1, e2), new_ls ++ [fn e1 e2]) [] (zip ls1 ls2))
  else Raise AssertionError.

(** ** The tree a Module unfolds to

    The spec speaks of finite acyclic Module trees.  [MNode a cls ps cs] is
    the Module at address [a], of class [cls], with parameter store [ps]
    and children [cs] under their local names; [unfolds h t] says that the
    store [h] looks like [t] from [root t] downwards.  A store with a cycle
    below [a] unfolds to no finite tree. *)

#[warnings="-register-all"]
Inductive MTree :=
| MNode (a : addr) (cls : string) (ps : list (string * ploc))
        (cs : list (string * MTree)).

Definition root (t : MTree) : addr := let 'MNode a _ _ _ := t in a.
Definition tcls (t : MTree) : string := let 'MNode _ cls _ _ := t in cls.
Definition tparams (t : MTree) : list (string * ploc) :=
  let 'MNode _ _ ps _ := t in ps.
Definition kids (t : MTree) : list (string * MTree) :=
  let 'MNode _ _ _ cs := t in cs.

Fixpoint tsize (t : MTree) : nat :=
  let 'MNode _ _ _ cs := t in S (sum_list_with (λ nc, tsize nc.2) cs).

(** Addresses of a tree, root first. *)
Fixpoint taddrs (t : MTree) : list addr :=
  let 'MNode a _ _ cs := t in a :: concat (map (λ nc, taddrs nc.2) cs).

Definition descendants (t : MTree) : list addr :=
  concat (map (λ nc, taddrs nc.2) (kids t)).

#[warnings="-register-all"]
Inductive unfolds (h : Heap) : MTree → Prop :=
| unfolds_node a cls ps cs m :
    mods h !! a = Some m →
    cls_name m = cls →
    _parameters m = ps →
    _modules m = map (λ nc, (nc.1, root nc.2)) cs →
    Forall (λ nc, unfolds h nc.2) cs →
    unfolds h (MNode a cls ps cs).

(** A tree-shaped store below [root t]: no Module is reached twice. *)
Definition tree_shaped (h : Heap) (t : MTree) : Prop :=
  unfolds h t ∧ NoDup (taddrs t).

(** No Module of the tree has a plain field named [key]. *)
Definition no_plain_field (key : string) (h : Heap) (t : MTree) : Prop :=
  ∀ a m, a ∈ taddrs t → mods h !! a = Some m → key ∉ dict_keys (attrs m).

(** *** Breadth-first order, level by level

    A queue entry is a Module with the local names on the way to it. *)

Abbreviation entry := (list string * MTree)%type.

Definition children_of (e : entry) : list entry :=
  map (λ nc, (e.1 ++ [nc.1], nc.2)) (kids e.2).

Definition next_level (q : list entry) : list entry :=
  concat (map children_of q).

(** The Modules [d] levels below those of [q], left to right. *)
Fixpoint level (d : nat) (q : list entry) : list entry :=
  match d with
  | 0 => q
  | S d' => level d' (next_level q)
  end.

Definition fsize (q : list entry) : nat := sum_list_with (λ e, tsize e.2) q.

(** Level 0, then level 1, and so on: all of them, since a forest of
    [fsize q] Modules has no more than that many levels. *)
Definition level_order (n : nat) (q : list entry) : list entry :=
  concat (map (λ d, level d q) (seq 0 n)).

Definition bfs_order (q : list entry) : list entry :=
  level_order (fsize q) q.

(** The dot-joined qualified name of a path. *)
Definition qualified (path : list string) : string := String.concat "." path.

(** The parameters of one Module under their qualified names. *)
Definition qualified_params (e : entry) : list (string * ploc) :=
  map (λ np, (qualified (e.1 ++ [np.1]), np.2)) (tparams e.2).

(** The proper descendants of [t] in breadth-first order. *)
Definition descendants_bfs (t : MTree) : list entry :=
  bfs_order (children_of ([], t)).

(** *** Rendering, as the spec words it *)

(** Every line after the first indented by two more spaces. *)
Fixpoint indent_rest (s : string) : string :=
  match s with
  | EmptyString => ""
  | String c s' =>
      if decide (c = ascii_of_nat 10)
      then String c ("  " +:+ indent_rest s')
      else String c (indent_rest s')
  end.

Fixpoint render (t : MTree) : string :=
  let 'MNode _ cls _ cs := t in
  match cs with
  | [] => cls +:+ "()"
  | _ =>
      cls +:+ "("
        +:+ String.concat ""
              (map (λ nc, nl +:+ "  (" +:+ nc.1 +:+ "): "
                             +:+ indent_rest (render nc.2)) cs)
        +:+ nl +:+ ")"
  end.

Fixpoint theight (t : MTree) : nat :=
  let 'MNode _ _ _ cs := t in S (max_list_with (λ nc, theight nc.2) cs).

(** ** Notions used in the statements *)

Definition faddrs (q : list entry) : list addr :=
  concat (map (λ e, taddrs e.2) q).

(** A queue entry as the loops hold it: qualified name and address. *)
Definition conc (e : entry) : string * addr := (qualified e.1, root e.2).

Definition all_qualified_params (q : list entry) : list (string * ploc) :=
  concat (map qualified_params (bfs_order q)).

(** The same Parameters without their names. *)
Definition all_params (q : list entry) : list ploc :=
  concat (map (λ e, map snd (tparams e.2)) (bfs_order q)).

(** What the mode loop may change in a Module: the [training] entry of
    [__dict__], and once it holds [b] it keeps holding [b]. *)
Definition mode_only (b : bool) (m m' : ModuleObj) : Prop :=
  cls_name m' = cls_name m ∧ _modules m' = _modules m ∧
  _parameters m' = _parameters m ∧
  (∀ key, key ≠ "training" → dict_get (attrs m') key = dict_get (attrs m) key) ∧
  (dict_get (attrs m) "training" = Some (VBool b) →
   dict_get (attrs m') "training" = Some (VBool b)).

Definition mode_steps (b : bool) (h h' : Heap) : Prop :=
  pars h' = pars h ∧
  ∀ a, option_Forall2 (mode_only b) (mods h !! a) (mods h' !! a).

Definition child_line (nc : string * MTree) : string :=
  "(" +:+ nc.1 +:+ "): " +:+ indent_rest (render nc.2).

(** *** Example stores, built as the Python statements would build them *)

(** [root = Module(); sub = Module(); sub.p = Parameter(5); root.sub = sub] *)
Definition script_sub : option (addr * addr * ploc * Heap) :=
  let '(root, h) := Module_new empty_heap "Module" in
  let '(sub, h) := Module_new h "Module" in
  match Parameter_new 0 h (VNum 5) None with
  | Ok (p, h) =>
      h ← setattr h sub "p" (VParam p);
      h ← setattr h root "sub" (VModule sub);
      Some (root, sub, p, h)
  | Raise _ => None
  end.

Definition heap_sub : Heap :=
  mkHeap {[ 0 := mkModule "Module" [("sub", 1)] [] [("training", VBool true)];
            1 := mkModule "Module" [] [("p", 0)] [("training", VBool true)] ]}
         {[ 0 := mkParameter (VNum 5) None ]}.

Definition tree_sub : MTree :=
  MNode 0 "Module" [] [("sub", MNode 1 "Module" [("p", 0)] [])].

(** [heap_sub] after [root.named_children = 5]: a plain field with the name
    of a method. *)
Definition heap_hidden_children : Heap :=
  mkHeap {[ 0 := mkModule "Module" [("sub", 1)] []
                   [("training", VBool true); ("named_children", VNum 5)];
            1 := mkModule "Module" [] [("p", 0)] [("training", VBool true)] ]}
         {[ 0 := mkParameter (VNum 5) None ]}.

(** [heap_sub] after [root.modules = 5]. *)
Definition heap_hidden_modules : Heap :=
  mkHeap {[ 0 := mkModule "Module" [("sub", 1)] []
                   [("training", VBool true); ("modules", VNum 5)];
            1 := mkModule "Module" [] [("p", 0)] [("training", VBool true)] ]}
         {[ 0 := mkParameter (VNum 5) None ]}.


(** [root.a = A; root.b = B; A.c = C], four Modules on three levels. *)
Definition script_levels : option Heap :=
  let '(root, h) := Module_new empty_heap "Module" in
  let '(A, h) := Module_new h "Module" in
  let '(B, h) := Module_new h "Module" in
  let '(C, h) := Module_new h "Module" in
  h ← setattr h root "a" (VModule A);
  h ← setattr h root "b" (VModule B);
  setattr h A "c" (VModule C).

Definition heap_levels : Heap :=
  mkHeap {[ 0 := mkModule "Module" [("a", 1); ("b", 2)] []
                   [("training", VBool true)];
            1 := mkModule "Module" [("c", 3)] [] [("training", VBool true)];
            2 := mkModule "Module" [] [] [("training", VBool true)];
            3 := mkModule "Module" [] [] [("training", VBool true)] ]}
         ∅.

Definition tree_levels : MTree :=
  MNode 0 "Module" []
    [("a", MNode 1 "Module" [] [("c", MNode 3 "Module" [] [])]);
     ("b", MNode 2 "Module" [] [])].

(** [root = Root(); root.inner = Leaf()] for two subclasses of Module. *)
Definition script_render : option Heap :=
  let '(root, h) := Module_new empty_heap "Root" in
  let '(leaf, h) := Module_new h "Leaf" in
  setattr h root "inner" (VModule leaf).

Definition heap_render : Heap :=
  mkHeap {[ 0 := mkModule "Root" [("inner", 1)] [] [("training", VBool true)];
            1 := mkModule "Leaf" [] [] [("training", VBool true)] ]}
         ∅.

Definition tree_render : MTree :=
  MNode 0 "Root" [] [("inner", MNode 1 "Leaf" [] [])].

(** *** Parameter payloads *)

Definition payload_name (v : PyVal) : option string :=
  match v with
  | VVar x => var_name x
  | _ => None
  end.

Definition payload_trainable (v : PyVal) : Prop :=
  ∃ x, v = VVar x ∧ requires_grad x = true.

(** The Parameter invariant read word for word, for the constructor: it
    does not fail; a payload with the capability has had it invoked with
    true; a name that is set has been assigned to the payload's name
    field. *)
Definition init_as_claimed (depth : nat) (h : Heap) (x : PyVal)
    (name : option string) : Prop :=
  ∃ o h', Parameter_init depth h x name = Ok (o, h') ∧
          (has_requires_grad_attr x = true → payload_trainable (value o)) ∧
          (∀ s, name = Some s → payload_name (value o) = Some s).

(** The payload [v] a Parameter named [n] holds after it was given [x]. *)
Definition payload_after (x : PyVal) (n : option string) (v : PyVal) : Prop :=
  (has_requires_grad_attr x = true →
   ∃ x0 y, x = VVar x0 ∧ v = VVar y ∧ requires_grad y = true ∧
           var_data y = var_data x0 ∧
           (name_is_truthy n = true → var_name y = n) ∧
           (name_is_truthy n = false → var_name y = var_name x0)) ∧
  (has_requires_grad_attr x = false → v = x).

(** The entries of a traversal that do not lie under the child [key]. *)
Definition elsewhere (key : string) (es : list entry) : list entry :=
  filter (λ e, head e.1 ≠ Some key) es.

(** A root with parameters [w], [b] and children [l1], [l2], and a Module
    apart from it. *)
Definition heap_rebind : Heap :=
  mkHeap {[ 0 := mkModule "Module" [("l1", 1); ("l2", 2)] [("w", 0); ("b", 1)]
                   [("training", VBool true)];
            1 := mkModule "Module" [] [("u", 2)] [("training", VBool true)];
            2 := mkModule "Module" [] [("v", 3)] [("training", VBool true)];
            3 := mkModule "Module" [] [("z", 4)] [("training", VBool true)] ]}
         {[ 0 := mkParameter (VNum 1) None; 1 := mkParameter (VNum 2) None;
            2 := mkParameter (VNum 3) None; 3 := mkParameter (VNum 4) None;
            4 := mkParameter (VNum 5) None; 5 := mkParameter (VNum 6) None ]}.

Definition tree_rebind : MTree :=
  MNode 0 "Module" [("w", 0); ("b", 1)]
    [("l1", MNode 1 "Module" [("u", 2)] []);
     ("l2", MNode 2 "Module" [("v", 3)] [])].

Definition tree_apart : MTree := MNode 3 "Module" [("z", 4)] [].

(** ** operators: arithmetic and the list combinators

    The functions of [operators.py] take Python numbers.  They are modelled
    here on Python ints, whose arithmetic is exact; [map] and [reduce] are
    modelled for any element type. *)

Module operators.

Definition mul (x y : Z) : Z := (x * y)%Z.

Definition add (x y : Z) : Z := (x + y)%Z.

Definition neg (x : Z) : Z := (- x)%Z.

(** [map(fn)]: the loop appends [fn(e)] for each [e]. *)
Definition map {A B : Type} (fn : A → B) (ls : list A) : list B :=
  foldl (λ new_ls e, new_ls ++ [fn e]) [] ls.

Definition negList (ls : list Z) : list Z := map neg ls.

Definition addLists (ls1 ls2 : list Z) : Result (list Z) :=
  zipWith add ls1 ls2.

(** [reduce(fn, start)]: [res = fn(e, res)] for each [e], from [start]. *)
Definition reduce {A B : Type} (fn : A → B → B) (start : B) (ls : list A) : B :=
  foldl (λ res e, fn e res) start ls.

Definition sum (ls : list Z) : Z := reduce add 0%Z ls.

Definition prod (ls : list Z) : Z := reduce mul 1%Z ls.

End operators.

(** ** Further notions on Modules *)

(** Calling the Module at [self], that is [Module.__call__]. *)
Definition Module_call (depth : nat) (h : Heap) (self : addr) : Result PyVal :=
  call_value depth h (AVal (VModule self)).

(** All Parameters held anywhere in a tree, a Module's own before those of
    its children. *)
Fixpoint tree_parameters (t : MTree) : list ploc :=
  let 'MNode _ _ ps cs := t in
  map snd ps ++ concat (map (λ nc, tree_parameters nc.2) cs).

(** A set of Modules each of which has a child in the set: from any of
    them some cycle of the store is reached. *)
Definition leads_to_cycle (h : Heap) (S : addr → Prop) : Prop :=
  ∀ a, S a → ∃ m c, mods h !! a = Some m ∧ c ∈ Module_modules m ∧ S c.

(** [m = Module(); m.me = m] *)
Definition heap_loop : Heap :=
  mkHeap {[ 0 := mkModule "Module" [("me", 0)] [] [("training", VBool true)] ]}
         ∅.

(** A root whose two children are one and the same Module. *)
Definition heap_shared : Heap :=
  mkHeap {[ 0 := mkModule "Module" [("x", 1); ("y", 1)] []
                   [("training", VBool true)];
            1 := mkModule "Module" [] [("p", 0)] [("training", VBool true)] ]}
         {[ 0 := mkParameter (VNum 5) None ]}.

Definition tree_shared : MTree :=
  MNode 0 "Module" []
    [("x", MNode 1 "Module" [("p", 0)] []);
     ("y", MNode 1 "Module" [("p", 0)] [])].

(** * Properties *)

(** ** Induction on trees, children included *)

Lemma MTree_rect' (P : MTree → Prop) :
  (∀ a cls ps cs, Forall (λ nc, P nc.2) cs → P (MNode a cls ps cs)) →
  ∀ t, P t.
Proof.
  intros step. fix IH 1. intros [a cls ps cs]. apply step.
  induction cs as [|nc cs IHcs]; constructor; [apply IH | exact IHcs].
Qed.

(** ** Dictionaries *)

Section dict_facts.
Context {V : Type}.
Implicit Types (d : list (string * V)) (k : string) (v : V).

Lemma dict_get_set_eq d k v : dict_get (dict_set d k v) k = Some v.
Proof.
  induction d as [|[k' v'] d IH]; simpl.
  - by rewrite decide_True.
  - destruct (decide (k' = k)) as [->|Hne]; simpl.
    + by rewrite decide_True.
    + by rewrite decide_False.
Qed.

Lemma dict_get_set_ne d k k' v :
  k ≠ k' → dict_get (dict_set d k v) k' = dict_get d k'.
Proof.
  intros Hne. induction d as [|[k0 v0] d IH]; simpl.
  - by rewrite decide_False.
  - destruct (decide (k0 = k)) as [->|Hk]; simpl.
    + by rewrite !decide_False.
    + destruct (decide (k0 = k')); [done | apply IH].
Qed.

Lemma dict_get_Some_elem d k v : dict_get d k = Some v → (k, v) ∈ d.
Proof.
  induction d as [|[k0 v0] d IH]; simpl; [done |].
  destruct (decide (k0 = k)) as [->|].
  - intros [= ->]. left.
  - intros H. right. by apply IH.
Qed.

Lemma dict_get_None d k : dict_get d k = None ↔ k ∉ dict_keys d.
Proof.
  unfold dict_keys. induction d as [|[k0 v0] d IH]; simpl.
  - split; [intros _; apply not_elem_of_nil | done].
  - rewrite not_elem_of_cons. destruct (decide (k0 = k)) as [->|Hne].
    + split; [done | intros [? _]; done].
    + rewrite IH. split; [by split | by intros [_ ?]].
Qed.



(** Where a present key sits, and that [dict_set] writes there. *)
Lemma dict_set_in_place d k old v :
  dict_get d k = Some old →
  ∃ l1 l2, d = l1 ++ (k, old) :: l2 ∧ (k ∉ dict_keys l1) ∧
           dict_set d k v = l1 ++ (k, v) :: l2.
Proof.
  induction d as [|[k0 v0] d IH]; simpl; [done |].
  destruct (decide (k0 = k)) as [->|Hne].
  - intros [= ->]. exists [], d. split_and!; [done | apply not_elem_of_nil | done].
  - intros H. destruct (IH H) as (l1 & l2 & -> & Hk & ->).
    exists ((k0, v0) :: l1), l2. split_and!; [done | | done].
    unfold dict_keys in *. simpl. rewrite not_elem_of_cons. by split.
Qed.

(** A new key goes to the end. *)
Lemma dict_set_new d k v :
  dict_get d k = None → dict_set d k v = d ++ [(k, v)].
Proof.
  induction d as [|[k0 v0] d IH]; simpl; [done |].
  destruct (decide (k0 = k)); [done |]. intros H. by rewrite IH.
Qed.


Lemma dict_set_first l1 k old l2 v :
  k ∉ dict_keys l1 →
  dict_set (l1 ++ (k, old) :: l2) k v = l1 ++ (k, v) :: l2.
Proof.
  unfold dict_keys. induction l1 as [|[k0 v0] l1 IH]; simpl.
  - intros _. by rewrite decide_True.
  - rewrite not_elem_of_cons. intros [Hne Hk]. by rewrite decide_False, IH.
Qed.

Lemma dict_set_keys_present d k v :
  is_Some (dict_get d k) → dict_keys (dict_set d k v) = dict_keys d.
Proof.
  intros [old H]. destruct (dict_set_in_place d k old v H)
    as (l1 & l2 & -> & _ & ->).
  unfold dict_keys. by rewrite !map_app.
Qed.

Lemma dict_set_NoDup d k v :
  NoDup (dict_keys d) → NoDup (dict_keys (dict_set d k v)).
Proof.
  intros Hnd. destruct (dict_get d k) as [old|] eqn:Hg.
  - by rewrite dict_set_keys_present.
  - rewrite dict_set_new by done. unfold dict_keys in *.
    rewrite map_app. simpl. apply NoDup_app. split_and!; [done | |].
    + intros x Hx. rewrite list_elem_of_singleton. intros ->.
      by apply dict_get_None in Hg.
    + apply NoDup_singleton.
Qed.
End dict_facts.

(** ** Breadth-first order *)

Lemma fsize_app q1 q2 : fsize (q1 ++ q2) = fsize q1 + fsize q2.
Proof. apply sum_list_with_app. Qed.

Lemma fsize_children e : S (fsize (children_of e)) = tsize e.2.
Proof.
  destruct e as [path [a cls ps cs]]. unfold fsize, children_of. simpl.
  f_equal. induction cs as [|nc cs IH]; simpl; [done | by rewrite IH].
Qed.

Lemma fsize_next_level q : fsize (next_level q) + length q = fsize q.
Proof.
  induction q as [|e q IH]; [done |].
  change (next_level (e :: q)) with (children_of e ++ next_level q).
  rewrite fsize_app. change (fsize (e :: q)) with (tsize e.2 + fsize q).
  rewrite <- (fsize_children e). simpl. lia.
Qed.

Lemma level_nil d : level d [] = [].
Proof. induction d; [done | apply IHd]. Qed.

Lemma next_level_app q1 q2 :
  next_level (q1 ++ q2) = next_level q1 ++ next_level q2.
Proof. unfold next_level. by rewrite map_app, concat_app. Qed.

Lemma level_app d q1 q2 : level d (q1 ++ q2) = level d q1 ++ level d q2.
Proof.
  revert q1 q2. induction d as [|d IH]; intros q1 q2; [done |].
  simpl. by rewrite next_level_app, IH.
Qed.

Lemma level_succ_cons d e q :
  level (S d) (e :: q) = level d (children_of e) ++ level (S d) q.
Proof.
  simpl. change (next_level (e :: q)) with (children_of e ++ next_level q).
  apply level_app.
Qed.

(** No level beyond the number of Modules. *)
Lemma level_beyond d q : fsize q ≤ d → level d q = [].
Proof.
  revert q. induction d as [|d IH]; intros q Hle.
  - destruct q as [|[path [a cls ps cs]] q]; [done |].
    unfold fsize in Hle. simpl in Hle. lia.
  - simpl. destruct q as [|e q]; [apply level_nil |].
    apply IH. pose proof (fsize_next_level (e :: q)) as H.
    cbn [length] in H. lia.
Qed.

Lemma level_order_S n q :
  level_order (S n) q = level_order n q ++ level n q.
Proof.
  unfold level_order. rewrite seq_S, map_app, concat_app. simpl.
  by rewrite app_nil_r.
Qed.

Lemma level_order_stable n q :
  fsize q ≤ n → level_order n q = bfs_order q.
Proof.
  unfold bfs_order. induction 1 as [|n Hle IH]; [done |].
  by rewrite level_order_S, IH, level_beyond, app_nil_r.
Qed.

(** Shifting one sequence of segments past another. *)
Lemma interleave_shift {A} (f g : nat → list A) n :
  f 0 ++ concat (map (λ d, g d ++ f (S d)) (seq 0 n))
  = concat (map (λ d, f d ++ g d) (seq 0 n)) ++ f n.
Proof.
  induction n as [|n IH].
  - simpl. by rewrite app_nil_r.
  - rewrite !seq_S, !map_app, !concat_app. cbn [map concat Nat.add].
    rewrite !app_nil_r, app_assoc, IH. by rewrite <- !app_assoc.
Qed.

Lemma level_order_shift n q :
  level_order (S n) q = q ++ concat (map (λ d, level (S d) q) (seq 0 n)).
Proof.
  unfold level_order. simpl. by rewrite <- seq_shift, map_map.
Qed.

(** The queue discipline: the head first, its children behind the rest. *)
Lemma bfs_order_cons e q :
  bfs_order (e :: q) = e :: bfs_order (q ++ children_of e).
Proof.
  set (n := fsize (q ++ children_of e)).
  assert (fsize (e :: q) = S n) as Hn.
  { unfold n. rewrite fsize_app.
    change (fsize (e :: q)) with (tsize e.2 + fsize q).
    rewrite <- (fsize_children e). lia. }
  unfold bfs_order at 1. rewrite Hn, level_order_shift.
  rewrite (map_ext _ (λ d, level d (children_of e) ++ level (S d) q))
    by (intros d; apply level_succ_cons).
  cbn [app]. f_equal.
  etrans;
    [exact (interleave_shift (λ d, level d q)
              (λ d, level d (children_of e)) n) |].
  cbv beta. rewrite (level_beyond n q) by (unfold n; rewrite fsize_app; lia).
  rewrite app_nil_r. unfold bfs_order, level_order. fold n.
  f_equal. apply map_ext. intros d. by rewrite level_app.
Qed.

Lemma bfs_order_nil : bfs_order [] = [].
Proof. done. Qed.

(** An induction principle that follows the queue. *)
Lemma queue_ind (P : list entry → Prop) :
  P [] →
  (∀ e q, P (q ++ children_of e) → P (e :: q)) →
  ∀ q, P q.
Proof.
  intros Hnil Hcons q.
  remember (fsize q) as n eqn:Hn. revert q Hn.
  induction n as [n IH] using lt_wf_ind. intros [|e q] Hn; [done |].
  apply Hcons. eapply IH; [| done]. subst n. rewrite fsize_app.
  change (fsize (e :: q)) with (tsize e.2 + fsize q).
  rewrite <- (fsize_children e). lia.
Qed.

Lemma faddrs_app q1 q2 : faddrs (q1 ++ q2) = faddrs q1 ++ faddrs q2.
Proof. unfold faddrs. by rewrite map_app, concat_app. Qed.

Lemma faddrs_cons e q :
  faddrs (e :: q) = root e.2 :: faddrs (children_of e) ++ faddrs q.
Proof.
  destruct e as [path [a cls ps cs]]. unfold faddrs, children_of. simpl.
  by rewrite map_map.
Qed.

(** Breadth-first order lists every Module of the forest, as often as the
    forest holds it. *)
Lemma bfs_order_Permutation q :
  map (λ e, root e.2) (bfs_order q) ≡ₚ faddrs q.
Proof.
  induction q as [|e q IH] using queue_ind; [done |].
  rewrite bfs_order_cons, faddrs_cons. simpl. constructor.
  rewrite IH, faddrs_app. apply Permutation_app_comm.
Qed.

(** ** Strings *)

Lemma string_app_assoc (s1 s2 s3 : string) :
  (s1 +:+ s2) +:+ s3 = s1 +:+ (s2 +:+ s3).
Proof.
  induction s1 as [|c s1 IH]; [done |].
  change (String c ((s1 +:+ s2) +:+ s3) = String c (s1 +:+ (s2 +:+ s3))).
  by rewrite IH.
Qed.

Lemma string_app_cons c (s1 s2 : string) :
  String c s1 +:+ s2 = String c (s1 +:+ s2).
Proof. done. Qed.

(** The name the loop builds step by step is the dot-joined path. *)
Lemma qualified_snoc path n :
  path ≠ [] → qualified (path ++ [n]) = dotted (qualified path) n.
Proof.
  unfold qualified, dotted. induction path as [|x path IH]; [done |].
  intros _. destruct path as [|y path]; [done |].
  change (String.concat "." ((x :: y :: path) ++ [n]))
    with (x +:+ "." +:+ String.concat "." ((y :: path) ++ [n])).
  rewrite IH by done.
  change (String.concat "." (x :: y :: path))
    with (x +:+ "." +:+ String.concat "." (y :: path)).
  by rewrite !string_app_assoc.
Qed.

Lemma qualified_singleton n : qualified ([] ++ [n]) = n.
Proof. done. Qed.

(** ** Stores and the trees they unfold to *)

Lemma unfolds_inv h t :
  unfolds h t →
  ∃ m, mods h !! root t = Some m ∧ cls_name m = tcls t ∧
       _parameters m = tparams t ∧
       _modules m = map (λ nc, (nc.1, root nc.2)) (kids t) ∧
       Forall (λ nc, unfolds h nc.2) (kids t).
Proof. inversion 1; subst. by exists m. Qed.

Lemma unfolds_children h e :
  unfolds h e.2 → Forall (λ c, unfolds h c.2) (children_of e).
Proof.
  intros (m & _ & _ & _ & _ & Hcs)%unfolds_inv.
  unfold children_of. by rewrite Forall_map.
Qed.

Lemma children_paths e : Forall (λ c, c.1 ≠ []) (children_of e).
Proof.
  unfold children_of. rewrite Forall_map. apply Forall_true.
  intros nc. simpl. by destruct (e.1).
Qed.

Lemma conc_children e :
  e.1 ≠ [] →
  map conc (children_of e)
  = map (λ '(n, c), (dotted (qualified e.1) n, c))
        (map (λ nc, (nc.1, root nc.2)) (kids e.2)).
Proof.
  intros Hne. unfold children_of. rewrite !map_map.
  apply map_ext. intros [n c]. unfold conc. simpl.
  by rewrite qualified_snoc.
Qed.

Lemma conc_children_root t :
  map conc (children_of ([], t)) = map (λ nc, (nc.1, root nc.2)) (kids t).
Proof. unfold children_of. rewrite map_map. by apply map_ext. Qed.

Lemma qualified_params_dotted e :
  e.1 ≠ [] →
  qualified_params e
  = map (λ '(n, p), (dotted (qualified e.1) n, p)) (tparams e.2).
Proof.
  intros Hne. apply map_ext. intros [n p]. simpl. by rewrite qualified_snoc.
Qed.

Lemma qualified_params_root t : qualified_params ([], t) = tparams t.
Proof.
  unfold qualified_params. simpl. rewrite <- (map_id (tparams t)) at 2.
  apply map_ext. by intros [n p].
Qed.

Lemma fsize_pos e q : 0 < fsize (e :: q).
Proof. destruct e as [path [a cls ps cs]]. unfold fsize. simpl. lia. Qed.

Lemma fsize_step e q : fsize (e :: q) = S (fsize (q ++ children_of e)).
Proof.
  rewrite fsize_app. change (fsize (e :: q)) with (tsize e.2 + fsize q).
  rewrite <- (fsize_children e). lia.
Qed.

(** ** named_parameters and parameters *)

Lemma elem_of_concat_map {A B} (f : A → list B) (l : list A) (x : B) :
  x ∈ concat (map f l) ↔ ∃ y, y ∈ l ∧ x ∈ f y.
Proof.
  rewrite list_elem_of_In, in_concat. split.
  - intros (k & (y & <- & Hy)%in_map_iff & Hx).
    exists y. by rewrite !list_elem_of_In.
  - intros (y & Hy%list_elem_of_In & Hx%list_elem_of_In). exists (f y).
    rewrite in_map_iff. eauto.
Qed.

Lemma method_lookup_class depth h m key :
  key ∈ ["modules"; "named_children"] → key ∉ dict_keys (attrs m) →
  method_lookup depth h m key = Ok tt.
Proof.
  intros Hk Hnot%dict_get_None.
  unfold method_lookup, Module_getattribute, plain_lookup.
  rewrite !elem_of_cons in Hk.
  destruct Hk as [->|[->|?%elem_of_nil]]; [| | done]; by rewrite Hnot.
Qed.

Lemma no_plain_field_root key h t m :
  no_plain_field key h t → mods h !! root t = Some m →
  key ∉ dict_keys (attrs m).
Proof.
  intros Hno Hm. apply (Hno (root t)); [| done]. destruct t. left.
Qed.

Lemma no_plain_field_children key h (e : entry) :
  no_plain_field key h e.2 →
  Forall (λ c, no_plain_field key h c.2) (children_of e).
Proof.
  intros Hno. unfold children_of. apply Forall_map, Forall_forall.
  intros nc Hnc a m Ha Hm. simpl in Ha. apply (Hno a); [| done].
  destruct e as [path [b cls ps cs]]. simpl in *. right.
  apply elem_of_concat_map. by exists nc.
Qed.

Lemma named_parameters_loop_spec depth h fuel q params :
  Forall (λ e, unfolds h e.2) q → Forall (λ e, e.1 ≠ []) q →
  Forall (λ e, no_plain_field "named_children" h e.2) q →
  fsize q ≤ fuel →
  named_parameters_loop depth fuel h (map conc q) params
  = Returns (params ++ all_qualified_params q).
Proof.
  unfold all_qualified_params. revert q params.
  induction fuel as [|fuel IH]; intros [|e q] params Hu Hp Hno Hle.
  - simpl. by rewrite app_nil_r.
  - pose proof (fsize_pos e q). lia.
  - simpl. by rewrite app_nil_r.
  - apply Forall_cons in Hu as [Hue Hu]. apply Forall_cons in Hp as [Hpe Hp].
    apply Forall_cons in Hno as [Hnoe Hno].
    destruct (unfolds_inv _ _ Hue) as (m & Hm & _ & Hps & Hcs & _).
    cbn [map]. unfold conc at 1. cbn [named_parameters_loop].
    rewrite Hm. cbn [found mbind Outcome_bind].
    rewrite method_lookup_class;
      [| set_solver | by apply (no_plain_field_root _ h e.2)].
    cbn [raised]. unfold Module_named_children.
    rewrite Hps, Hcs, <- conc_children, <- qualified_params_dotted by done.
    rewrite <- map_app, IH.
    + rewrite bfs_order_cons. simpl. by rewrite <- app_assoc.
    + apply Forall_app. split; [done | by apply unfolds_children].
    + apply Forall_app. split; [done | apply children_paths].
    + apply Forall_app. split; [done | by apply no_plain_field_children].
    + rewrite fsize_step in Hle. lia.
Qed.

(** On a finite acyclic tree whose Modules have no plain field called
    [named_children], [named_parameters] returns, and what. *)
Lemma named_parameters_spec depth h t fuel :
  unfolds h t → no_plain_field "named_children" h t → tsize t ≤ S fuel →
  Module_named_parameters depth fuel h (root t)
  = Returns (tparams t ++ all_qualified_params (children_of ([], t))).
Proof.
  intros Hu Hno Hle. destruct (unfolds_inv _ _ Hu) as (m & Hm & _ & Hps & Hcs & _).
  unfold Module_named_parameters. rewrite Hm. cbn [found mbind Outcome_bind].
  rewrite method_lookup_class;
    [| set_solver | by apply (no_plain_field_root _ h t)].
  cbn [raised]. unfold Module_named_children.
  rewrite Hps, Hcs, <- conc_children_root.
  apply named_parameters_loop_spec.
  - by apply (unfolds_children h ([], t)).
  - apply children_paths.
  - by apply (no_plain_field_children _ h ([], t)).
  - pose proof (fsize_children ([], t)) as H. simpl in H. lia.
Qed.

Lemma all_params_qualified q : all_params q = map snd (all_qualified_params q).
Proof.
  unfold all_params, all_qualified_params. rewrite concat_map, map_map.
  f_equal. apply map_ext. intros e. unfold qualified_params.
  rewrite map_map. by apply map_ext.
Qed.

Lemma parameters_loop_spec depth h fuel q params :
  Forall (λ e, unfolds h e.2) q →
  Forall (λ e, no_plain_field "modules" h e.2) q →
  fsize q ≤ fuel →
  parameters_loop depth fuel h (map (λ e, root e.2) q) params
  = Returns (params ++ all_params q).
Proof.
  unfold all_params. revert q params.
  induction fuel as [|fuel IH]; intros [|e q] params Hu Hno Hle.
  - simpl. by rewrite app_nil_r.
  - pose proof (fsize_pos e q). lia.
  - simpl. by rewrite app_nil_r.
  - apply Forall_cons in Hu as [Hue Hu]. apply Forall_cons in Hno as [Hnoe Hno].
    destruct (unfolds_inv _ _ Hue) as (m & Hm & _ & Hps & Hcs & _).
    cbn [map parameters_loop]. rewrite Hm. cbn [found mbind Outcome_bind].
    rewrite method_lookup_class;
      [| set_solver | by apply (no_plain_field_root _ h e.2)].
    cbn [raised]. unfold Module_modules, dict_values.
    rewrite Hps, Hcs, map_map. cbn [snd].
    replace (map (λ x : string * MTree, root x.2) (kids e.2))
      with (map (λ c : entry, root c.2) (children_of e))
      by (unfold children_of; by rewrite map_map).
    rewrite <- map_app, IH.
    + rewrite bfs_order_cons. simpl. by rewrite <- app_assoc.
    + apply Forall_app. split; [done | by apply unfolds_children].
    + apply Forall_app. split; [done | by apply no_plain_field_children].
    + rewrite fsize_step in Hle. lia.
Qed.

(** On a finite acyclic tree whose Modules have no plain field called
    [modules], [parameters] returns, and what. *)
Lemma parameters_spec depth h t fuel :
  unfolds h t → no_plain_field "modules" h t → tsize t ≤ S fuel →
  Module_parameters depth fuel h (root t)
  = Returns (map snd (tparams t) ++ all_params (children_of ([], t))).
Proof.
  intros Hu Hno Hle. destruct (unfolds_inv _ _ Hu) as (m & Hm & _ & Hps & Hcs & _).
  unfold Module_parameters. rewrite Hm. cbn [found mbind Outcome_bind].
  rewrite method_lookup_class;
    [| set_solver | by apply (no_plain_field_root _ h t)].
  cbn [raised]. unfold Module_modules, dict_values.
  rewrite Hps, Hcs, map_map. cbn [snd].
  replace (map (λ x : string * MTree, root x.2) (kids t))
    with (map (λ c : entry, root c.2) (children_of ([], t)))
    by (unfold children_of; by rewrite map_map).
  apply parameters_loop_spec.
  - by apply (unfolds_children h ([], t)).
  - by apply (no_plain_field_children _ h ([], t)).
  - pose proof (fsize_children ([], t)) as H. simpl in H. lia.
Qed.

(** ** train and eval *)

Lemma mode_only_refl b m : mode_only b m m.
Proof. by repeat split. Qed.

Lemma mode_only_trans b m1 m2 m3 :
  mode_only b m1 m2 → mode_only b m2 m3 → mode_only b m1 m3.
Proof.
  intros (? & ? & ? & Ho & Ht) (? & ? & ? & Ho' & Ht').
  repeat split; try congruence.
  - intros key Hk. by rewrite Ho', Ho.
  - auto.
Qed.

Lemma mode_steps_refl b h : mode_steps b h h.
Proof.
  split; [done |]. intros a. destruct (mods h !! a); constructor.
  apply mode_only_refl.
Qed.

Lemma mode_steps_trans b h1 h2 h3 :
  mode_steps b h1 h2 → mode_steps b h2 h3 → mode_steps b h1 h3.
Proof.
  intros [Hp H12] [Hp' H23]. split; [congruence |]. intros a.
  specialize (H12 a). specialize (H23 a).
  destruct H12 as [m1 m2 H12|]; inversion H23; subst; constructor.
  by eapply mode_only_trans.
Qed.

Lemma training_lookup m :
  Module_getattribute m "training"
  = match dict_get (attrs m) "training" with
    | Some v => AVal v
    | None => AVal (Module_getattr m "training")
    end.
Proof.
  unfold Module_getattribute, plain_lookup.
  rewrite !decide_False by done. by destruct (dict_get (attrs m) "training").
Qed.

Lemma training_Some h a m b :
  mods h !! a = Some m → dict_get (attrs m) "training" = Some (VBool b) →
  training h a = Some (AVal (VBool b)).
Proof.
  intros Hm Ht. unfold training. rewrite Hm. simpl.
  by rewrite training_lookup, Ht.
Qed.

Lemma set_training_spec b h a m :
  mods h !! a = Some m →
  ∃ h' m', set_training b h a = Some h' ∧ mods h' !! a = Some m' ∧
           _modules m' = _modules m ∧
           dict_get (attrs m') "training" = Some (VBool b) ∧
           mode_steps b h h'.
Proof.
  intros Hm. unfold set_training, setattr. rewrite Hm. simpl.
  eexists _, _. split; [done |]. split; [apply lookup_insert_eq |].
  split; [done |]. split; [apply dict_get_set_eq |].
  split; [done |]. intros a'. simpl.
  destruct (decide (a = a')) as [<-|Hne].
  - rewrite lookup_insert_eq, Hm. constructor. repeat split.
    + intros key Hk. simpl. by apply dict_get_set_ne.
    + intros _. apply dict_get_set_eq.
  - rewrite lookup_insert_ne by done.
    destruct (mods h !! a'); constructor. apply mode_only_refl.
Qed.

Lemma mode_steps_unfolds b h h' t :
  mode_steps b h h' → unfolds h t → unfolds h' t.
Proof.
  intros [_ Hs]. induction t as [a cls ps cs IH] using MTree_rect'.
  intros (m & Hm & Hcls & Hps & Hcs & Hkids)%unfolds_inv. simpl in *.
  specialize (Hs a). rewrite Hm in Hs. inversion Hs as [? m' Hmm E1 E2|]; subst.
  destruct Hmm as (? & ? & ? & _). symmetry in E2.
  eapply unfolds_node; [exact E2 | congruence.. |].
  rewrite Forall_forall in IH, Hkids |- *. auto.
Qed.

Lemma mode_steps_training b h h' a :
  mode_steps b h h' →
  training h a = Some (AVal (VBool b)) → training h' a = Some (AVal (VBool b)).
Proof.
  intros [_ Hs]. specialize (Hs a). unfold training.
  destruct Hs as [m m' (_ & _ & _ & _ & Ht)|]; [| done]. simpl.
  rewrite !training_lookup. intros [= H].
  destruct (dict_get (attrs m) "training") as [v|] eqn:Hv.
  - injection H as ->. by rewrite Ht.
  - exfalso. unfold Module_getattr in H.
    by repeat case_match.
Qed.

Lemma roots_children e m :
  _modules m = map (λ nc, (nc.1, root nc.2)) (kids e.2) →
  Module_modules m = map (λ c, root c.2) (children_of e).
Proof.
  intros E. unfold Module_modules, dict_values, children_of.
  by rewrite E, !map_map.
Qed.

Lemma mode_steps_no_plain_field b h h' key t :
  key ≠ "training" → mode_steps b h h' →
  no_plain_field key h t → no_plain_field key h' t.
Proof.
  intros Hkey [_ Hs] Hno a m' Ha Hm'. specialize (Hs a). rewrite Hm' in Hs.
  inversion Hs as [m ? (_ & _ & _ & Hsame & _) E1 E2|]; subst.
  apply dict_get_None. rewrite Hsame by done. apply dict_get_None.
  by apply (Hno a).
Qed.

Lemma mode_loop_spec depth b h fuel q visited :
  Forall (λ e, unfolds h e.2) q →
  Forall (λ e, no_plain_field "modules" h e.2) q →
  fsize q ≤ fuel →
  ∃ h', mode_loop depth fuel b h (map (λ e, root e.2) q) visited
        = Returns (h', visited ++ map (λ e, root e.2) (bfs_order q)) ∧
        mode_steps b h h' ∧
        ∀ a, a ∈ faddrs q → training h' a = Some (AVal (VBool b)).
Proof.
  revert h q visited.
  induction fuel as [|fuel IH]; intros h [|e q] visited Hu Hno Hle.
  - exists h. simpl. rewrite app_nil_r. split_and!; [done | apply mode_steps_refl |].
    intros a Ha. by apply elem_of_nil in Ha.
  - pose proof (fsize_pos e q). lia.
  - exists h. simpl. rewrite app_nil_r. split_and!; [done | apply mode_steps_refl |].
    intros a Ha. by apply elem_of_nil in Ha.
  - apply Forall_cons in Hu as [Hue Hu]. apply Forall_cons in Hno as [Hnoe Hno].
    destruct (unfolds_inv _ _ Hue) as (m & Hm & _ & _ & Hcs & _).
    destruct (set_training_spec b h _ m Hm) as (h1 & m1 & Hset & Hm1 & Hcs1 & Ht1 & Hst).
    assert (∀ t, no_plain_field "modules" h t → no_plain_field "modules" h1 t)
      as Hkeep by (intros t; by apply (mode_steps_no_plain_field b h h1)).
    destruct (IH h1 (q ++ children_of e) (visited ++ [root e.2])) as (h' & Hrun & Hst' & Hall).
    { apply Forall_app. split.
      - eapply Forall_impl; [exact Hu |]. intros x.
        by apply (mode_steps_unfolds b h).
      - apply unfolds_children. by apply (mode_steps_unfolds b h). }
    { apply Forall_app. split.
      - eapply Forall_impl; [exact Hno |]. intros x. apply Hkeep.
      - apply no_plain_field_children. by apply Hkeep. }
    { rewrite fsize_step in Hle. lia. }
    exists h'. split_and!.
    + cbn [map mode_loop]. rewrite Hset. cbn [found mbind Outcome_bind].
      rewrite Hm1. cbn [found mbind Outcome_bind].
      rewrite method_lookup_class;
        [| set_solver | apply (no_plain_field_root _ h1 e.2); auto].
      cbn [raised]. rewrite (roots_children e) by congruence.
      rewrite <- map_app, Hrun, bfs_order_cons. simpl.
      by rewrite <- app_assoc.
    + by apply (mode_steps_trans b h h1).
    + intros a. rewrite faddrs_cons, elem_of_cons. intros [->|Ha].
      * apply (mode_steps_training b h1); [done |]. by eapply training_Some.
      * apply Hall. rewrite faddrs_app, elem_of_app.
        apply elem_of_app in Ha. tauto.
Qed.

Lemma set_mode_spec depth b h t fuel :
  unfolds h t → no_plain_field "modules" h t → tsize t ≤ S fuel →
  ∃ h', set_mode depth fuel b h (root t)
        = Returns (h', map (λ e, root e.2) (descendants_bfs t)) ∧
        mode_steps b h h' ∧
        ∀ a, a ∈ taddrs t → training h' a = Some (AVal (VBool b)).
Proof.
  intros Hu Hno Hle. destruct (unfolds_inv _ _ Hu) as (m & Hm & _ & _ & Hcs & _).
  destruct (set_training_spec b h _ m Hm) as (h1 & m1 & Hset & Hm1 & Hcs1 & Ht1 & Hst).
  pose proof (mode_steps_no_plain_field b h h1 "modules" t ltac:(done) Hst Hno)
    as Hno1.
  destruct (mode_loop_spec depth b h1 fuel (children_of ([], t)) [])
    as (h' & Hrun & Hst' & Hall).
  { apply (unfolds_children h1 ([], t)). by apply (mode_steps_unfolds b h). }
  { by apply (no_plain_field_children _ h1 ([], t)). }
  { pose proof (fsize_children ([], t)) as H. simpl in H. lia. }
  exists h'. split_and!.
  - unfold set_mode. rewrite Hset. cbn [found mbind Outcome_bind].
    rewrite Hm1. cbn [found mbind Outcome_bind].
    rewrite method_lookup_class;
      [| set_solver | by apply (no_plain_field_root _ h1 t)].
    cbn [raised]. rewrite (roots_children ([], t)) by (simpl; congruence).
    exact Hrun.
  - by apply (mode_steps_trans b h h1).
  - intros a Ha. pose proof (faddrs_cons ([], t) []) as E.
    unfold faddrs at 1 in E. simpl in E. rewrite !app_nil_r in E.
    rewrite E in Ha. apply elem_of_cons in Ha as [->|Ha].
    + apply (mode_steps_training b h1); [done |]. by eapply training_Some.
    + by apply Hall.
Qed.

Lemma descendants_faddrs t : faddrs (children_of ([], t)) = descendants t.
Proof.
  destruct t as [a cls ps cs]. unfold faddrs, descendants, children_of.
  simpl. by rewrite map_map.
Qed.

Lemma visits_Permutation t :
  map (λ e, root e.2) (descendants_bfs t) ≡ₚ descendants t.
Proof.
  unfold descendants_bfs. by rewrite bfs_order_Permutation, descendants_faddrs.
Qed.

(** ** Rendering *)

Lemma split_nl_nonempty s : split_nl s ≠ [].
Proof.
  destruct s as [|c s]; [done |]. simpl.
  destruct (decide (c = ascii_of_nat 10)); [done |].
  by destruct (split_nl s).
Qed.

Lemma concat_nl_cons_indent first rest :
  String.concat nl (("  " +:+ first) :: rest)
  = "  " +:+ String.concat nl (first :: rest).
Proof. destruct rest; [done |]. simpl. by rewrite !string_app_assoc. Qed.

Lemma concat_nl_cons_char c first rest :
  String.concat nl (String c first :: rest)
  = String c (String.concat nl (first :: rest)).
Proof. by destruct rest. Qed.

(** Splitting at the line breaks, indenting all pieces but the first and
    joining them again puts two spaces behind every line break. *)
Lemma indent_rest_split s :
  indent_rest s
  = match split_nl s with
    | [] => s
    | first :: rest =>
        String.concat nl (first :: map (λ line, "  " +:+ line) rest)
    end.
Proof.
  induction s as [|c s IH]; [done |]. simpl.
  destruct (decide (c = ascii_of_nat 10)) as [->|Hc].
  - rewrite IH. pose proof (split_nl_nonempty s) as Hne.
    destruct (split_nl s) as [|first rest]; [done |].
    cbn [map]. rewrite concat_nl_cons_indent.
    change (String.concat nl ("" :: ?x :: ?l))
      with ("" +:+ nl +:+ String.concat nl (x :: l)).
    done.
  - rewrite IH. pose proof (split_nl_nonempty s) as Hne.
    destruct (split_nl s) as [|first rest]; [done |].
    by destruct (map _ rest).
Qed.

Lemma split_nl_singleton s x : split_nl s = [x] → x = s.
Proof.
  revert x. induction s as [|c s IH]; simpl; intros x; [by intros [= <-] |].
  destruct (decide (c = ascii_of_nat 10)).
  - intros [= <- Hs]. by apply split_nl_nonempty in Hs.
  - pose proof (split_nl_nonempty s) as Hne.
    destruct (split_nl s) as [|y l] eqn:E; [done |].
    intros [= <- ->]. by rewrite (IH y).
Qed.

Lemma _addindent_indent_rest s : _addindent s 2 = indent_rest s.
Proof.
  rewrite indent_rest_split. unfold _addindent.
  destruct (split_nl s) as [|first [|line rest]] eqn:E; [done | |].
  - simpl. symmetry. by apply split_nl_singleton.
  - done.
Qed.

Lemma join_lines_prefixed (lines : list string) :
  lines ≠ [] →
  nl +:+ "  " +:+ String.concat (nl +:+ "  ") lines
  = String.concat "" (map (λ line, nl +:+ "  " +:+ line) lines).
Proof.
  induction lines as [|x [|y lines] IH]; [done | done |]. intros _.
  change (String.concat (nl +:+ "  ") (x :: y :: lines))
    with (x +:+ (nl +:+ "  ") +:+ String.concat (nl +:+ "  ") (y :: lines)).
  change (String.concat "" (map ?f (x :: y :: lines)))
    with (f x +:+ "" +:+ String.concat "" (map f (y :: lines))).
  rewrite <- IH by done. cbv beta.
  change ("" +:+ ?s) with s. by rewrite !string_app_assoc.
Qed.

Lemma render_unfold a cls ps cs :
  render (MNode a cls ps cs)
  = match cs with
    | [] => cls +:+ "()"
    | _ => cls +:+ "("
             +:+ String.concat "" (map (λ nc, nl +:+ "  " +:+ child_line nc) cs)
             +:+ nl +:+ ")"
    end.
Proof. by destruct cs. Qed.

Lemma repr_children h d cs :
  Forall (λ nc, Module_repr d h (root nc.2) = Some (render nc.2)) cs →
  mapM (λ '(key, module),
          mod_str ← Module_repr d h module;
          Some ("(" +:+ key +:+ "): " +:+ _addindent mod_str 2))
       (map (λ nc, (nc.1, root nc.2)) cs)
  = Some (map child_line cs).
Proof.
  induction 1 as [|[n c] cs Hc _ IH]; [done |].
  cbn [map mapM]. simpl in Hc. cbn. rewrite Hc.
  cbn [mbind option_bind]. rewrite IH. cbn [mbind option_bind mret option_ret].
  unfold child_line. by rewrite _addindent_indent_rest.
Qed.

Lemma theight_child (nc : string * MTree) cs :
  nc ∈ cs → theight nc.2 ≤ max_list_with (λ nc, theight nc.2) cs.
Proof. induction 1; simpl; lia. Qed.

(** On a finite acyclic tree [__repr__] returns the rendering [render]. *)
Lemma Module_repr_spec h t depth :
  unfolds h t → theight t ≤ depth →
  Module_repr depth h (root t) = Some (render t).
Proof.
  revert depth. induction t as [a cls ps cs IH] using MTree_rect'.
  intros depth (m & Hm & Hcls & _ & Hcs & Hkids)%unfolds_inv Hle.
  simpl in Hm, Hcls, Hcs, Hkids, Hle.
  destruct depth as [|d]; [lia |]. cbn [Module_repr root].
  rewrite Hm. cbn [mbind option_bind]. rewrite Hcs, (repr_children h d cs).
  - cbn [mbind option_bind]. rewrite Hcls, render_unfold.
    destruct cs as [|nc cs].
    { simpl. rewrite string_app_assoc. reflexivity. }
    set (lines := map child_line (nc :: cs)).
    rewrite <- (map_map child_line (λ line, nl +:+ "  " +:+ line)).
    rewrite <- join_lines_prefixed by done.
    fold lines. destruct lines eqn:E; [done |].
    rewrite !string_app_assoc. reflexivity.
  - rewrite Forall_forall in IH, Hkids |- *. intros nc Hnc.
    apply IH; [done | by apply Hkids |].
    pose proof (theight_child nc cs Hnc). lia.
Qed.

(** ** Acyclicity *)

(** A store unfolds to at most one tree from a given address. *)
Lemma unfolds_det h t1 :
  ∀ t2, unfolds h t1 → unfolds h t2 → root t1 = root t2 → t1 = t2.
Proof.
  induction t1 as [a cls ps cs IH] using MTree_rect'.
  intros [a2 cls2 ps2 cs2] H1 H2 Hr. simpl in Hr. subst a2.
  apply unfolds_inv in H1 as (m & Hm & Hcls & Hps & Hcs & Hk).
  apply unfolds_inv in H2 as (m2 & Hm2 & Hcls2 & Hps2 & Hcs2 & Hk2).
  simpl in *. rewrite Hm in Hm2. injection Hm2 as <-.
  f_equal; [congruence.. |].
  rewrite Hcs in Hcs2. clear Hm Hcls Hps Hcs Hcls2 Hps2.
  revert cs2 Hcs2 Hk2.
  induction cs as [|[n c] cs IHcs]; intros [|[n2 c2] cs2] Hcs2 Hk2; try done.
  apply Forall_cons in IH as [IHc IH]. apply Forall_cons in Hk as [Hc Hk].
  apply Forall_cons in Hk2 as [Hc2 Hk2]. simpl in *.
  injection Hcs2 as -> Hr Hcs2. f_equal.
  - f_equal. by apply IHc.
  - by apply IHcs.
Qed.

Lemma tsize_child (nc : string * MTree) cs :
  nc ∈ cs → tsize nc.2 ≤ sum_list_with (λ nc, tsize nc.2) cs.
Proof. induction 1; simpl; lia. Qed.

Lemma taddrs_unfold t : taddrs t = root t :: descendants t.
Proof. by destruct t. Qed.

(** Whatever is reached below the root is a smaller tree. *)
Lemma descendant_smaller h t :
  unfolds h t → ∀ s, unfolds h s → root s ∈ descendants t → tsize s < tsize t.
Proof.
  induction t as [a cls ps cs IH] using MTree_rect'.
  intros Hu s Hs Hin. apply unfolds_inv in Hu as (_ & _ & _ & _ & _ & Hk).
  unfold descendants in Hin. simpl in Hin, Hk.
  apply elem_of_concat_map in Hin as (nc & Hnc & Hin).
  rewrite Forall_forall in IH, Hk.
  pose proof (tsize_child nc cs Hnc) as Hsz. simpl.
  rewrite taddrs_unfold in Hin. apply elem_of_cons in Hin as [Hr|Hin].
  - rewrite (unfolds_det h s nc.2); [lia | done | by apply Hk | done].
  - pose proof (IH nc Hnc (Hk nc Hnc) s Hs Hin). lia.
Qed.

Lemma unfolds_acyclic h t : unfolds h t → root t ∉ descendants t.
Proof.
  intros Hu Hin. pose proof (descendant_smaller h t Hu t Hu Hin). lia.
Qed.

(** Rewriting the Module at [a] does not disturb a tree that avoids [a]. *)
Lemma unfolds_frame h a m' s :
  a ∉ taddrs s → unfolds h s → unfolds (put_module h a m') s.
Proof.
  induction s as [b cls ps cs IH] using MTree_rect'.
  intros Hnot (m & Hm & Hcls & Hps & Hcs & Hk)%unfolds_inv. simpl in *.
  apply not_elem_of_cons in Hnot as [Hne Hnot].
  eapply unfolds_node; [| done..|].
  - simpl. by rewrite lookup_insert_ne.
  - rewrite Forall_forall in IH, Hk |- *. intros nc Hnc.
    apply IH; [done | | by apply Hk].
    intros Hin. apply Hnot, elem_of_concat_map. by exists nc.
Qed.

(** Replacing the parameter store of the root leaves the tree below as it
    was. *)
Lemma unfolds_set_parameters h a cls ps cs m ps' :
  unfolds h (MNode a cls ps cs) → mods h !! a = Some m →
  unfolds (put_module h a (mkModule (cls_name m) (_modules m) ps' (attrs m)))
          (MNode a cls ps' cs).
Proof.
  intros Hu Hm. pose proof (unfolds_acyclic _ _ Hu) as Hac.
  apply unfolds_inv in Hu as (m0 & Hm0 & Hcls & Hps & Hcs & Hk). simpl in *.
  rewrite Hm in Hm0. injection Hm0 as <-.
  eapply unfolds_node; [simpl; apply lookup_insert_eq | done.. |].
  rewrite Forall_forall in Hk |- *. intros nc Hnc.
  apply unfolds_frame; [| by apply Hk].
  intros Hin. apply Hac. unfold descendants. simpl.
  apply elem_of_concat_map. by exists nc.
Qed.

(** ** zipWith *)

Lemma zipWith_loop {A B C} (fn : A → B → C) acc (ls1 : list A) (ls2 : list B) :
  foldl (λ new_ls '(e1, e2), new_ls ++ [fn e1 e2]) acc (zip ls1 ls2)
  = acc ++ zip_with fn ls1 ls2.
Proof.
  revert acc ls2. induction ls1 as [|x ls1 IH]; intros acc [|y ls2]; simpl;
    try by rewrite app_nil_r.
  by rewrite IH, <- app_assoc.
Qed.

(** ** Parameter *)

(** The two names read on the way to a call are not names of the class. *)
Lemma call_lookups_not_class m key k :
  key = "requires_grad_" ∨ key = "forward" →
  Module_getattribute m key ≠ AClass k.
Proof.
  intros [-> | ->]; unfold Module_getattribute, plain_lookup;
    rewrite !decide_False by done;
    (destruct (dict_get (attrs m) _); [done |]);
    rewrite bool_decide_eq_false_2; [done | | done |];
    apply (bool_decide_unpack _); vm_compute; exact I.
Qed.

(** Calling what a Module without [forward] resolves never returns. *)
Lemma call_value_raises depth h f : ∃ e, call_value depth h f = Raise e.
Proof.
  revert f. induction depth as [|depth IH]; intros [[| | | | | |a]| | |];
    simpl; eauto.
  destruct (mods h !! a); eauto.
Qed.

(** ** The example stores *)

Example script_sub_runs : script_sub = Some (0, 1, 0, heap_sub).
Proof. vm_compute. reflexivity. Qed.

Example script_levels_runs : script_levels = Some heap_levels.
Proof. vm_compute. reflexivity. Qed.

Example script_render_runs : script_render = Some heap_render.
Proof. vm_compute. reflexivity. Qed.

Example hidden_children_built :
  setattr heap_sub 0 "named_children" (VNum 5) = Some heap_hidden_children.
Proof. vm_compute. reflexivity. Qed.

Example hidden_modules_built :
  setattr heap_sub 0 "modules" (VNum 5) = Some heap_hidden_modules.
Proof. vm_compute. reflexivity. Qed.

Ltac unfold_store :=
  repeat first
    [ apply List.Forall_nil
    | apply List.Forall_cons
    | eapply unfolds_node; [vm_compute; reflexivity | reflexivity .. | ] ].

Lemma heap_sub_unfolds : unfolds heap_sub tree_sub.
Proof. unfold_store. Qed.

Lemma heap_levels_unfolds : unfolds heap_levels tree_levels.
Proof. unfold_store. Qed.

Lemma heap_render_unfolds : unfolds heap_render tree_render.
Proof. unfold_store. Qed.

Lemma heap_hidden_children_unfolds : unfolds heap_hidden_children tree_sub.
Proof. unfold_store. Qed.

Lemma heap_hidden_modules_unfolds : unfolds heap_hidden_modules tree_sub.
Proof. unfold_store. Qed.

(** The Modules of an example store keep their methods in sight. *)
Ltac methods_in_sight :=
  let a := fresh "a" in let m := fresh "m" in
  let Ha := fresh "Ha" in let Hm := fresh "Hm" in
  intros a m Ha Hm; simpl in Ha; rewrite ?elem_of_cons, elem_of_nil in Ha;
  repeat (destruct Ha as [Ha|Ha]); [subst a; vm_compute in Hm;
    injection Hm as <-; apply (bool_decide_unpack _); vm_compute; exact I ..
    | done].

Lemma heap_sub_methods key :
  key ∈ ["modules"; "named_children"] → no_plain_field key heap_sub tree_sub.
Proof.
  rewrite !elem_of_cons, elem_of_nil. intros [->|[->|[]]]; methods_in_sight.
Qed.

Lemma heap_levels_methods key :
  key ∈ ["modules"; "named_children"] →
  no_plain_field key heap_levels tree_levels.
Proof.
  rewrite !elem_of_cons, elem_of_nil. intros [->|[->|[]]]; methods_in_sight.
Qed.

(** * The claims *)

(** C1, amended.  On every finite acyclic Module tree in which no Module
    has a plain field named [named_children], [named_parameters()] returns
    first the Module's own parameter entries under their bare local names,
    in insertion order, then the parameters of the descendants in
    breadth-first level order, each under the dot-joined path of local
    names from the root. *)
Theorem named_parameters_level_order depth h t fuel :
  unfolds h t → no_plain_field "named_children" h t → tsize t ≤ S fuel →
  Module_named_parameters depth fuel h (root t)
  = Returns (tparams t ++ concat (map qualified_params (descendants_bfs t))).
Proof. apply named_parameters_spec. Qed.

(** A root whose child ["sub"] holds the parameter ["p"] of value 5 yields
    exactly the pair [("sub.p", p)]. *)
Lemma named_parameters_level_order_sub :
  unfolds heap_sub tree_sub ∧
  no_plain_field "named_children" heap_sub tree_sub ∧
  tsize tree_sub ≤ 2 ∧
  pars heap_sub !! 0 = Some (mkParameter (VNum 5) None) ∧
  Module_named_parameters 1000 1 heap_sub 0 = Returns [("sub.p", 0)].
Proof.
  assert (no_plain_field "named_children" heap_sub tree_sub) as Hno
    by (apply heap_sub_methods; set_solver).
  split; [exact heap_sub_unfolds |]. split; [exact Hno |].
  split; [vm_compute; lia |].
  split; [reflexivity |].
  exact (named_parameters_level_order 1000 heap_sub tree_sub 1
           heap_sub_unfolds Hno (le_n 2)).
Defined.

(** C1 as stated fails on a finite acyclic tree: after
    [root.named_children = 5] the plain field hides the method that
    [named_parameters()] calls, and the call raises TypeError. *)
Lemma named_parameters_hidden_method :
  setattr heap_sub 0 "named_children" (VNum 5) = Some heap_hidden_children ∧
  unfolds heap_hidden_children tree_sub ∧
  ∀ depth fuel,
    Module_named_parameters depth fuel heap_hidden_children 0
    = Raises TypeError.
Proof.
  split; [vm_compute; reflexivity |].
  split; [exact heap_hidden_children_unfolds |].
  intros depth fuel. by destruct depth.
Qed.

(** C6, amended.  On every finite acyclic Module tree in which no Module
    has a plain field named [modules] or [named_children], [parameters()]
    returns the sequence [named_parameters()] returns with the names
    dropped: the same Parameter objects in the same order. *)
Theorem parameters_drops_names depth h t fuel :
  unfolds h t → no_plain_field "modules" h t →
  no_plain_field "named_children" h t → tsize t ≤ S fuel →
  ∃ named, Module_named_parameters depth fuel h (root t) = Returns named ∧
           Module_parameters depth fuel h (root t) = Returns (map snd named).
Proof.
  intros Hu Hm Hn Hle. eexists. split; [by apply named_parameters_spec |].
  rewrite parameters_spec by done. by rewrite map_app, all_params_qualified.
Qed.

Lemma parameters_drops_names_sub :
  unfolds heap_sub tree_sub ∧ no_plain_field "modules" heap_sub tree_sub ∧
  no_plain_field "named_children" heap_sub tree_sub ∧ tsize tree_sub ≤ 2 ∧
  ∃ named, Module_named_parameters 1000 1 heap_sub 0 = Returns named ∧
           Module_parameters 1000 1 heap_sub 0 = Returns (map snd named).
Proof.
  assert (no_plain_field "modules" heap_sub tree_sub) as Hm
    by (apply heap_sub_methods; set_solver).
  assert (no_plain_field "named_children" heap_sub tree_sub) as Hn
    by (apply heap_sub_methods; set_solver).
  split; [exact heap_sub_unfolds |]. split; [exact Hm |]. split; [exact Hn |].
  split; [vm_compute; lia |].
  exact (parameters_drops_names 1000 heap_sub tree_sub 1 heap_sub_unfolds
           Hm Hn (le_n 2)).
Defined.

(** C6 as stated fails on a finite acyclic tree: after [root.modules = 5]
    [named_parameters()] returns as before, while [parameters()], which
    calls [self.modules()], raises TypeError. *)
Lemma parameters_hidden_method :
  setattr heap_sub 0 "modules" (VNum 5) = Some heap_hidden_modules ∧
  unfolds heap_hidden_modules tree_sub ∧
  ∀ depth fuel,
    Module_named_parameters depth (S fuel) heap_hidden_modules 0
    = Returns [("sub.p", 0)] ∧
    Module_parameters depth fuel heap_hidden_modules 0 = Raises TypeError.
Proof.
  split; [vm_compute; reflexivity |].
  split; [exact heap_hidden_modules_unfolds |].
  intros depth fuel. split; [by destruct fuel | by destruct depth].
Qed.

(** C2, amended.  On every finite Module tree in which no Module is
    reached twice and none has a plain field named [modules], [train()]
    sets the mode of the Module and of every descendant to true and
    [eval()] sets them all to false; the loop dequeues the descendants in
    breadth-first order, each exactly once, and changes nothing but the
    mode.  In particular [train()] followed by [eval()] leaves the mode
    false everywhere. *)
Theorem train_eval_visit_once depth h t fuel :
  tree_shaped h t → no_plain_field "modules" h t → tsize t ≤ S fuel →
  let visits := map (λ e, root e.2) (descendants_bfs t) in
  NoDup visits ∧ visits ≡ₚ descendants t ∧
  (∃ h1, Module_train depth fuel h (root t) = Returns (h1, visits) ∧
         tree_shaped h1 t ∧
         (∀ a, a ∈ taddrs t → training h1 a = Some (AVal (VBool true))) ∧
         ∃ h2, Module_eval depth fuel h1 (root t) = Returns (h2, visits) ∧
               tree_shaped h2 t ∧
               ∀ a, a ∈ taddrs t → training h2 a = Some (AVal (VBool false))) ∧
  (∃ h1, Module_eval depth fuel h (root t) = Returns (h1, visits) ∧
         tree_shaped h1 t ∧
         ∀ a, a ∈ taddrs t → training h1 a = Some (AVal (VBool false))).
Proof.
  intros [Hu Hnd] Hno Hle visits.
  assert (visits ≡ₚ descendants t) as Hperm by apply visits_Permutation.
  split_and!; [| done | |].
  - rewrite Hperm. rewrite taddrs_unfold in Hnd. by apply NoDup_cons in Hnd as [_ ?].
  - destruct (set_mode_spec depth true h t fuel Hu Hno Hle)
      as (h1 & Hrun1 & Hst1 & Hall1).
    pose proof (mode_steps_unfolds _ _ _ _ Hst1 Hu) as Hu1.
    pose proof (mode_steps_no_plain_field true h h1 "modules" t ltac:(done)
                  Hst1 Hno) as Hno1.
    destruct (set_mode_spec depth false h1 t fuel Hu1 Hno1 Hle)
      as (h2 & Hrun2 & Hst2 & Hall2).
    exists h1. split; [exact Hrun1 |]. split; [by split |].
    split; [exact Hall1 |].
    exists h2. split; [exact Hrun2 |]. split; [| exact Hall2].
    split; [by apply (mode_steps_unfolds false h1) | done].
  - destruct (set_mode_spec depth false h t fuel Hu Hno Hle)
      as (h1 & Hrun1 & Hst1 & Hall1).
    exists h1. split; [exact Hrun1 |]. split; [| exact Hall1].
    split; [by apply (mode_steps_unfolds false h) | done].
Qed.

(** root → A, B and A → C: [root.train()] then [root.eval()] leaves the
    mode false on root, A, B and C. *)
Lemma train_eval_visit_once_levels :
  tree_shaped heap_levels tree_levels ∧
  no_plain_field "modules" heap_levels tree_levels ∧
  tsize tree_levels ≤ 4 ∧
  ∃ h1 h2, Module_train 1000 3 heap_levels 0 = Returns (h1, [1; 2; 3]) ∧
           Module_eval 1000 3 h1 0 = Returns (h2, [1; 2; 3]) ∧
           training h2 0 = Some (AVal (VBool false)) ∧
           training h2 1 = Some (AVal (VBool false)) ∧
           training h2 2 = Some (AVal (VBool false)) ∧
           training h2 3 = Some (AVal (VBool false)).
Proof.
  assert (tree_shaped heap_levels tree_levels) as Hts.
  { split; [exact heap_levels_unfolds |]. vm_compute.
    repeat (constructor; [rewrite ?elem_of_cons, elem_of_nil; lia |]).
    constructor. }
  assert (no_plain_field "modules" heap_levels tree_levels) as Hno
    by (apply heap_levels_methods; set_solver).
  split; [exact Hts |]. split; [exact Hno |]. split; [vm_compute; lia |].
  destruct (train_eval_visit_once 1000 heap_levels tree_levels 3 Hts Hno
              (le_n 4))
    as (_ & _ & (h1 & Htrain & _ & _ & h2 & Heval & _ & Hall) & _).
  exists h1, h2. split; [exact Htrain |]. split; [exact Heval |].
  assert (∀ a, a ∈ [0; 1; 3; 2] → training h2 a = Some (AVal (VBool false)))
    as Hall' by exact Hall.
  split_and!; apply Hall'; rewrite !elem_of_cons; tauto.
Defined.

(** C2 as stated fails on a finite tree: after [root.modules = 5] the plain
    field hides the method that [train()] and [eval()] call, and both
    raise TypeError. *)
Lemma train_eval_hidden_method :
  setattr heap_sub 0 "modules" (VNum 5) = Some heap_hidden_modules ∧
  tree_shaped heap_hidden_modules tree_sub ∧
  ∀ depth fuel,
    Module_train depth fuel heap_hidden_modules 0 = Raises TypeError ∧
    Module_eval depth fuel heap_hidden_modules 0 = Raises TypeError.
Proof.
  split; [vm_compute; reflexivity |]. split.
  - split; [exact heap_hidden_modules_unfolds |].
    apply (bool_decide_unpack _). vm_compute. exact I.
  - intros depth fuel. split; by destruct depth.
Qed.

(** C8.  The rendering of a Module is its type name and ["("], then for
    each child in insertion order a line ["(localName): "] followed by the
    child's own rendering, every line of which after its first is indented
    by two more spaces, and then [")"]; each child line starts on a new
    line behind two spaces and the closing [")"] on a new line.  A Module
    without children renders as ["TypeName()"]. *)
Theorem repr_renders h t depth :
  unfolds h t → theight t ≤ depth →
  Module_repr depth h (root t) = Some (render t) ∧
  (kids t = [] → Module_repr depth h (root t) = Some (tcls t +:+ "()")).
Proof.
  intros Hu Hle. pose proof (Module_repr_spec h t depth Hu Hle) as H.
  split; [done |]. intros Hk. rewrite H. destruct t as [a cls ps cs].
  simpl in Hk. by subst cs.
Qed.

(** A [Root] with the single child ["inner"] of class [Leaf]. *)
Lemma repr_renders_root_leaf :
  unfolds heap_render tree_render ∧ theight tree_render ≤ 2 ∧
  Module_repr 2 heap_render 0
  = Some ("Root(" +:+ nl +:+ "  (inner): Leaf()" +:+ nl +:+ ")").
Proof.
  split; [exact heap_render_unfolds |].
  split; [vm_compute; lia |].
  exact (proj1 (repr_renders heap_render tree_render 2 heap_render_unfolds
                  (le_n 2))).
Defined.

(** C9.  [zipWith(fn)] fails its assertion whenever the two lists differ in
    length; on lists of equal length it returns the list whose i-th element
    is [fn] of the i-th elements of the inputs. *)
Theorem zipWith_equal_lengths {A B C} (fn : A → B → C) (ls1 : list A)
    (ls2 : list B) :
  (length ls1 ≠ length ls2 → zipWith fn ls1 ls2 = Raise AssertionError) ∧
  (length ls1 = length ls2 →
   ∃ new_ls, zipWith fn ls1 ls2 = Ok new_ls ∧
             length new_ls = length ls1 ∧
             ∀ i e1 e2, ls1 !! i = Some e1 → ls2 !! i = Some e2 →
                        new_ls !! i = Some (fn e1 e2)).
Proof.
  unfold zipWith. split; intros Hlen.
  - by rewrite decide_False.
  - rewrite decide_True by done. rewrite zipWith_loop. simpl.
    eexists. split; [done |]. split.
    + rewrite length_zip_with. lia.
    + intros i e1 e2 H1 H2. by rewrite lookup_zip_with, H1, H2.
Qed.

Lemma zipWith_equal_lengths_add :
  zipWith Nat.add [1; 2; 3] [4; 5] = Raise AssertionError ∧
  ∃ new_ls, zipWith Nat.add [1; 2; 3] [4; 5; 6] = Ok new_ls ∧
            length new_ls = 3 ∧
            ∀ i e1 e2, [1; 2; 3] !! i = Some e1 → [4; 5; 6] !! i = Some e2 →
                       new_ls !! i = Some (e1 + e2).
Proof.
  split.
  - apply (zipWith_equal_lengths Nat.add [1; 2; 3] [4; 5]). simpl. lia.
  - apply (zipWith_equal_lengths Nat.add [1; 2; 3] [4; 5; 6]). reflexivity.
Defined.

(** C3.  Binding a local name to a Module and later the same name to a
    Parameter, or the other way round, leaves the name in both stores:
    [__setattr__] writes into the store that matches the new value and
    leaves the other store as it is. *)
Theorem setattr_keeps_other_store m x a p :
  (∃ m1 m2, Module_setattr m x (VModule a) = Some m1 ∧
            Module_setattr m1 x (VParam p) = Some m2 ∧
            dict_get (_modules m2) x = Some a ∧
            dict_get (_parameters m2) x = Some p) ∧
  (∃ m1 m2, Module_setattr m x (VParam p) = Some m1 ∧
            Module_setattr m1 x (VModule a) = Some m2 ∧
            dict_get (_modules m2) x = Some a ∧
            dict_get (_parameters m2) x = Some p) ∧
  (∃ m', Module_setattr m x (VParam p) = Some m' ∧
         _modules m' = _modules m ∧ attrs m' = attrs m) ∧
  (∃ m', Module_setattr m x (VModule a) = Some m' ∧
         _parameters m' = _parameters m ∧ attrs m' = attrs m).
Proof.
  split_and!.
  - eexists _, _. split; [done |]. split; [done |]. simpl.
    split; apply dict_get_set_eq.
  - eexists _, _. split; [done |]. split; [done |]. simpl.
    split; apply dict_get_set_eq.
  - by eexists.
  - by eexists.
Qed.





(** ** Parameter: what construction and update leave behind *)

Lemma mark_trainable_spec depth h x n :
  (∀ a, x ≠ VModule a) →
  ∃ v, mark_trainable depth h x n = Ok (v, h) ∧ payload_after x n v.
Proof.
  intros Hx. unfold mark_trainable, payload_after.
  destruct x as [| | | |x0| |a]; simpl; try (by eexists; split; [done |]; split).
  - destruct (has_requires_grad_ x0) eqn:Hcap.
    + eexists. split; [done |]. split; [| done]. intros _.
      eexists x0, _. split; [done |]. split; [done |].
      destruct n as [s|]; simpl; [| by repeat split].
      destruct (bool_decide (s = "")); simpl; by repeat split.
    + eexists. split; [done |]. by split.
  - by destruct (Hx a).
Qed.

(** A Module as payload: the constructor raises, whatever the Module holds. *)
Lemma mark_trainable_module depth h a n :
  ∃ e, mark_trainable depth h (VModule a) n = Raise e.
Proof.
  unfold mark_trainable. simpl. destruct (mods h !! a) as [m|]; [| eauto].
  destruct (call_value_raises depth h (Module_getattribute m "requires_grad_"))
    as [e ->]. simpl. eauto.
Qed.

Lemma add_parameter_module depth h self k a :
  ∃ e, Module_add_parameter depth h self k (VModule a) = Raise e.
Proof.
  unfold Module_add_parameter, Parameter_new, Parameter_init.
  destruct (mark_trainable_module depth h a (Some k)) as [e ->]. simpl. eauto.
Qed.

(** Any other value: [add_parameter] wraps it in a new Parameter named [k]
    and puts that in the parameter store under [k]; the child store and
    the plain fields stay as they are. *)
Lemma add_parameter_stores depth h self m k v :
  (∀ a, v ≠ VModule a) → mods h !! self = Some m →
  ∃ v' h',
    let p := fresh (dom (pars h)) in
    Module_add_parameter depth h self k v = Ok (p, h') ∧
    pars h !! p = None ∧
    pars h' !! p = Some (mkParameter v' (Some k)) ∧ payload_after v (Some k) v' ∧
    mods h' !! self
    = Some (mkModule (cls_name m) (_modules m)
                     (dict_set (_parameters m) k p) (attrs m)).
Proof.
  intros Hv Hm. destruct (mark_trainable_spec depth h v (Some k) Hv)
    as (v' & Hmark & Hafter).
  unfold Module_add_parameter, Parameter_new, Parameter_init.
  rewrite Hmark. simpl. rewrite Hm. eexists v', _. simpl.
  split; [done |]. split.
  - apply not_elem_of_dom, is_fresh.
  - split; [apply lookup_insert_eq |]. split; [done | apply lookup_insert_eq].
Qed.

(** C4, amended.  For every payload that is not itself a Module,
    construction and update do not fail; a payload that supports the
    mark-trainable capability has had it invoked with true, and has been
    given the Parameter's name when that name is a non-empty string; a
    payload without the capability is stored untouched, named or not. *)
Theorem parameter_marks_trainable depth h x n :
  (∀ a, x ≠ VModule a) →
  (∃ v, Parameter_init depth h x n = Ok (mkParameter v n, h) ∧
        payload_after x n v) ∧
  (∀ self o, pars h !! self = Some o →
     ∃ v, Parameter_update depth h self x
          = Ok (put_parameter h self (mkParameter v (name o))) ∧
          payload_after x (name o) v).
Proof.
  intros Hx. split.
  - destruct (mark_trainable_spec depth h x n Hx) as (v & Hmark & Hafter).
    exists v. unfold Parameter_init. rewrite Hmark. by split.
  - intros self o Ho.
    destruct (mark_trainable_spec depth h x (name o) Hx)
      as (v & Hmark & Hafter).
    exists v. unfold Parameter_update. rewrite Ho, Hmark. by split.
Qed.

(** A trainable payload wrapped under the name ["w"]. *)
Lemma parameter_marks_trainable_named :
  (∀ a, VVar (mkVariable true false None 3) ≠ VModule a) ∧
  ∃ v, Parameter_init 0 empty_heap (VVar (mkVariable true false None 3))
         (Some "w")
       = Ok (mkParameter v (Some "w"), empty_heap) ∧
       payload_after (VVar (mkVariable true false None 3)) (Some "w") v.
Proof.
  split; [discriminate |].
  apply (parameter_marks_trainable 0 empty_heap
           (VVar (mkVariable true false None 3)) (Some "w")).
  discriminate.
Defined.

(** C4 as stated fails by the code's design in two ways: the name is
    assigned inside the capability test, so a payload without the
    capability never receives it; and the test on the name is Python
    truthiness, so the empty name is not assigned either. *)
Lemma parameter_claim_fails :
  ¬ init_as_claimed 0 empty_heap (VVar (mkVariable false false None 3))
      (Some "w") ∧
  ¬ init_as_claimed 0 empty_heap (VVar (mkVariable true false None 3))
      (Some "").
Proof.
  split; intros (o & h' & Hinit & _ & Hname);
    injection Hinit as <- _; by specialize (Hname _ eq_refl).
Qed.

(** C10.  On a new Module, [add_parameter("k", Module())] raises TypeError
    and stores nothing: [hasattr(v, "requires_grad_")] holds for a Module,
    whose [__getattr__] returns None, and None is then called. *)
Theorem add_parameter_module_value :
  let '(root, h) := Module_new empty_heap "Module" in
  let '(v, h) := Module_new h "Module" in
  Module_add_parameter 1000 h root "k" (VModule v) = Raise TypeError.
Proof. vm_compute. reflexivity. Qed.

(** ** Rebinding a name *)

Lemma elsewhere_app key es1 es2 :
  elsewhere key (es1 ++ es2) = elsewhere key es1 ++ elsewhere key es2.
Proof. apply filter_app. Qed.

Lemma elsewhere_all key es :
  Forall (λ e, head e.1 ≠ Some key) es → elsewhere key es = es.
Proof.
  unfold elsewhere. induction 1 as [|e es He _ IH]; [done |].
  by rewrite filter_cons_True, IH.
Qed.

Lemma elsewhere_none key es :
  Forall (λ e, head e.1 = Some key) es → elsewhere key es = [].
Proof.
  unfold elsewhere. induction 1 as [|e es He _ IH]; [done |].
  rewrite filter_cons_False; [done |]. by intros [].
Qed.

(** Below a named Module every path starts with that Module's first name. *)
Lemma level_heads (P : option string → Prop) d q :
  Forall (λ e, e.1 ≠ [] ∧ P (head e.1)) q →
  Forall (λ e, e.1 ≠ [] ∧ P (head e.1)) (level d q).
Proof.
  revert q. induction d as [|d IH]; intros q Hq; [done |].
  simpl. apply IH. unfold next_level. apply Forall_concat, Forall_map.
  eapply Forall_impl; [exact Hq |]. intros [path t] [Hne HP]. simpl in *.
  unfold children_of. apply Forall_map, Forall_true. intros nc. simpl.
  destruct path; [done |]. by split.
Qed.

Lemma elsewhere_level key d q1 x q2 :
  Forall (λ e, e.1 ≠ [] ∧ head e.1 ≠ Some key) (q1 ++ q2) →
  x.1 ≠ [] ∧ head x.1 = Some key →
  elsewhere key (level d (q1 ++ x :: q2)) = level d (q1 ++ q2).
Proof.
  intros [H1 H2]%Forall_app Hx.
  change (x :: q2) with ([x] ++ q2). rewrite !level_app, !elsewhere_app.
  rewrite (elsewhere_all key (level d q1)), (elsewhere_all key (level d q2)).
  - rewrite elsewhere_none; [done |].
    eapply Forall_impl; [apply (level_heads (λ o, o = Some key)) |].
    + by constructor.
    + by intros e [_ ?].
  - eapply Forall_impl; [by apply (level_heads (λ o, o ≠ Some key)) |].
    by intros e [_ ?].
  - eapply Forall_impl; [by apply (level_heads (λ o, o ≠ Some key)) |].
    by intros e [_ ?].
Qed.

Lemma elsewhere_bfs_order key q1 x q2 :
  Forall (λ e, e.1 ≠ [] ∧ head e.1 ≠ Some key) (q1 ++ q2) →
  x.1 ≠ [] ∧ head x.1 = Some key →
  elsewhere key (bfs_order (q1 ++ x :: q2)) = bfs_order (q1 ++ q2).
Proof.
  intros Hq Hx.
  rewrite <- (level_order_stable (fsize (q1 ++ x :: q2)) (q1 ++ q2)).
  - unfold bfs_order, level_order.
    induction (seq 0 (fsize (q1 ++ x :: q2))) as [|d ds IH]; [done |].
    simpl. by rewrite elsewhere_app, IH, elsewhere_level.
  - rewrite !fsize_app. change (x :: q2) with ([x] ++ q2).
    rewrite fsize_app. lia.
Qed.

(** The children of the root under distinct local names. *)
Lemma root_children_heads t key c1 told c2 :
  kids t = c1 ++ (key, told) :: c2 →
  NoDup (map fst (kids t)) →
  ∀ tnew,
    ∃ q1 q2,
      children_of ([], t) = q1 ++ ([key], told) :: q2 ∧
      children_of ([], MNode (root t) (tcls t) (tparams t)
                                (c1 ++ (key, tnew) :: c2))
      = q1 ++ ([key], tnew) :: q2 ∧
      Forall (λ e, e.1 ≠ [] ∧ head e.1 ≠ Some key) (q1 ++ q2).
Proof.
  intros Hk Hnd tnew. unfold children_of. simpl. rewrite Hk in Hnd |- *.
  rewrite !map_app. simpl.
  eexists _, _. split; [done |]. split; [done |].
  rewrite map_app in Hnd. simpl in Hnd.
  apply NoDup_app in Hnd as (_ & Hd & Hnd2).
  apply NoDup_cons in Hnd2 as [Hn2 _].
  apply Forall_app. split; apply Forall_map, Forall_forall; intros [n c] Hin;
    simpl; (split; [done |]); intros [= ->].
  - apply (Hd key); [| left].
    apply list_elem_of_In, in_map_iff. exists (key, c).
    split; [done | by apply list_elem_of_In].
  - apply Hn2, list_elem_of_In, in_map_iff. exists (key, c).
    split; [done | by apply list_elem_of_In].
Qed.

(** Replacing one child of the root by a tree that avoids the root. *)
Lemma unfolds_set_child h a cls ps c1 key told c2 m tnew :
  unfolds h (MNode a cls ps (c1 ++ (key, told) :: c2)) →
  mods h !! a = Some m → (key ∉ map fst c1) →
  unfolds h tnew → a ∉ taddrs tnew →
  unfolds (put_module h a (mkModule (cls_name m)
                             (dict_set (_modules m) key (root tnew))
                             (_parameters m) (attrs m)))
          (MNode a cls ps (c1 ++ (key, tnew) :: c2)).
Proof.
  intros Hu Hm Hkey Hnew Hnot. pose proof (unfolds_acyclic _ _ Hu) as Hac.
  apply unfolds_inv in Hu as (m0 & Hm0 & Hcls & Hps & Hcs & Hk). simpl in *.
  rewrite Hm in Hm0. injection Hm0 as <-.
  assert (∀ nc, nc ∈ c1 ++ (key, told) :: c2 → a ∉ taddrs nc.2) as Hframe.
  { intros nc Hnc Hin. apply Hac. unfold descendants. simpl.
    apply elem_of_concat_map. by exists nc. }
  eapply unfolds_node; [simpl; apply lookup_insert_eq | done | done | |].
  - simpl. rewrite Hcs, !map_app. simpl.
    destruct (dict_set_in_place
                (map (λ nc, (nc.1, root nc.2)) c1
                   ++ (key, root told) :: map (λ nc, (nc.1, root nc.2)) c2)
                key (root told) (root tnew)) as (l1 & l2 & Heq & Hl1 & ->).
    + clear -Hkey. induction c1 as [|[n c] c1 IH]; simpl.
      * by rewrite decide_True.
      * simpl in Hkey. apply not_elem_of_cons in Hkey as [Hne Hkey].
        rewrite decide_False by done. by apply IH.
    + assert (map (λ nc : string * MTree, (nc.1, root nc.2)) c1 = l1
              ∧ map (λ nc : string * MTree, (nc.1, root nc.2)) c2 = l2)
        as [<- <-]; [| done].
      clear -Heq Hkey Hl1. revert l1 Heq Hl1.
      induction c1 as [|[n c] c1 IH]; intros [|[n' c'] l1] Heq Hl1; simpl in *.
      * by injection Heq as ->.
      * injection Heq as <- _ _. exfalso. apply Hl1. left.
      * injection Heq as -> _ _. exfalso. apply Hkey. left.
      * injection Heq as -> -> Heq.
        apply not_elem_of_cons in Hkey as [_ Hkey].
        unfold dict_keys in Hl1. simpl in Hl1.
        apply not_elem_of_cons in Hl1 as [_ Hl1].
        by destruct (IH Hkey l1 Heq Hl1) as [-> ->].
  - rewrite Forall_forall in Hk |- *. intros nc Hnc.
    apply elem_of_app in Hnc as [Hnc|Hnc].
    + apply unfolds_frame; [| apply Hk]; [apply Hframe |]; apply elem_of_app; by left.
    + apply elem_of_cons in Hnc as [->|Hnc].
      * by apply unfolds_frame.
      * apply unfolds_frame; [| apply Hk]; [apply Hframe |]; apply elem_of_app;
          right; by right.
Qed.

Lemma kids_lookup (cs : list (string * MTree)) key old :
  dict_get (map (λ nc, (nc.1, root nc.2)) cs) key = Some old →
  ∃ c1 told c2, cs = c1 ++ (key, told) :: c2 ∧ (key ∉ map fst c1) ∧
                root told = old.
Proof.
  induction cs as [|[n c] cs IH]; simpl; [done |].
  destruct (decide (n = key)) as [->|Hne].
  - intros [= <-]. exists [], c, cs. split_and!; [done | apply not_elem_of_nil | done].
  - intros (c1 & told & c2 & -> & Hk & <-)%IH.
    exists ((n, c) :: c1), told, c2. split_and!; [done | | done].
    simpl. apply not_elem_of_cons. by split.
Qed.

Lemma setattr_parameter h self m key p :
  mods h !! self = Some m →
  setattr h self key (VParam p)
  = Some (put_module h self (mkModule (cls_name m) (_modules m)
                               (dict_set (_parameters m) key p) (attrs m))).
Proof. intros Hm. unfold setattr. by rewrite Hm. Qed.

Lemma setattr_child h self m key a :
  mods h !! self = Some m →
  setattr h self key (VModule a)
  = Some (put_module h self (mkModule (cls_name m)
                               (dict_set (_modules m) key a)
                               (_parameters m) (attrs m))).
Proof. intros Hm. unfold setattr. by rewrite Hm. Qed.

Lemma tsize_replace_child a cls ps c1 key told c2 tnew :
  tsize (MNode a cls ps (c1 ++ (key, tnew) :: c2))
  ≤ tsize (MNode a cls ps (c1 ++ (key, told) :: c2)) + tsize tnew.
Proof. simpl. rewrite !sum_list_with_app. simpl. lia. Qed.

Lemma no_plain_field_put key h a m m' t :
  mods h !! a = Some m → attrs m' = attrs m →
  no_plain_field key h t → no_plain_field key (put_module h a m') t.
Proof.
  intros Hm Ha Hno b mb Hb Hmb. simpl in Hmb.
  destruct (decide (a = b)) as [<-|Hne].
  - rewrite lookup_insert_eq in Hmb. injection Hmb as <-. rewrite Ha.
    by apply (Hno a).
  - rewrite lookup_insert_ne in Hmb by done. by apply (Hno b).
Qed.

Lemma no_plain_field_replace key h a cls ps c1 k told c2 tnew :
  no_plain_field key h (MNode a cls ps (c1 ++ (k, told) :: c2)) →
  no_plain_field key h tnew →
  no_plain_field key h (MNode a cls ps (c1 ++ (k, tnew) :: c2)).
Proof.
  intros H1 H2 b m Hb Hm. simpl in Hb. apply elem_of_cons in Hb as [->|Hb].
  { apply (H1 a); [left | done]. }
  rewrite map_app, concat_app in Hb. simpl in Hb.
  rewrite !elem_of_app in Hb. destruct Hb as [Hb|[Hb|Hb]].
  - apply (H1 b); [| done]. simpl. right.
    rewrite map_app, concat_app, elem_of_app. by left.
  - by apply (H2 b).
  - apply (H1 b); [| done]. simpl. right.
    rewrite map_app, concat_app. simpl. rewrite !elem_of_app. by right; right.
Qed.

(** C7.  Rebinding a local name that is already in the parameter store, or
    in the child store, replaces the entry where it stands and moves
    nothing; [named_parameters()] then lists the other entries as before:
    after a Parameter is rebound only the rebound pair differs, and after a
    child is rebound the entries that do not lie under that child are the
    same, in the same order.  (The traversal is taken on a finite acyclic
    tree none of whose Modules hides the method [named_children] behind a
    plain field, where it returns.) *)
Theorem rebinding_in_place depth h t m key fuel :
  unfolds h t → no_plain_field "named_children" h t →
  mods h !! root t = Some m → tsize t ≤ S fuel →
  (∀ old new, dict_get (_parameters m) key = Some old →
     ∃ l1 l2 rest h',
       _parameters m = l1 ++ (key, old) :: l2 ∧ (key ∉ dict_keys l1) ∧
       setattr h (root t) key (VParam new) = Some h' ∧
       Module_named_parameters depth fuel h (root t)
       = Returns (l1 ++ (key, old) :: l2 ++ rest) ∧
       Module_named_parameters depth fuel h' (root t)
       = Returns (l1 ++ (key, new) :: l2 ++ rest)) ∧
  (∀ old tnew, dict_get (_modules m) key = Some old →
     NoDup (dict_keys (_modules m)) →
     unfolds h tnew → no_plain_field "named_children" h tnew →
     root t ∉ taddrs tnew → tsize t + tsize tnew ≤ S fuel →
     ∃ l1 l2 h' m' es es',
       _modules m = l1 ++ (key, old) :: l2 ∧ (key ∉ dict_keys l1) ∧
       setattr h (root t) key (VModule (root tnew)) = Some h' ∧
       mods h' !! root t = Some m' ∧
       _modules m' = l1 ++ (key, root tnew) :: l2 ∧
       _parameters m' = _parameters m ∧
       Module_named_parameters depth fuel h (root t)
       = Returns (tparams t ++ concat (map qualified_params es)) ∧
       Module_named_parameters depth fuel h' (root t)
       = Returns (tparams t ++ concat (map qualified_params es')) ∧
       elsewhere key es = elsewhere key es').
Proof.
  intros Hu Hno Hm Hle. split.
  - intros old new Hold.
    destruct (dict_set_in_place _ key old new Hold) as (l1 & l2 & Hps & Hk & Hset).
    destruct t as [a cls ps cs]. simpl in Hm.
    pose proof (unfolds_set_parameters h a cls ps cs m
                  (dict_set (_parameters m) key new) Hu Hm) as Hu'.
    destruct (unfolds_inv _ _ Hu) as (m0 & Hm0 & _ & Hps0 & _). simpl in *.
    rewrite Hm in Hm0. injection Hm0 as <-.
    exists l1, l2, (all_qualified_params (children_of ([], MNode a cls ps cs))).
    eexists. split; [done |]. split; [done |].
    split; [by apply setattr_parameter |]. split.
    + pose proof (named_parameters_spec depth h _ fuel Hu Hno Hle) as E.
      simpl in E. by rewrite E, <- Hps0, Hps, <- app_assoc.
    + assert (no_plain_field "named_children"
                (put_module h a (mkModule (cls_name m) (_modules m)
                                   (dict_set (_parameters m) key new) (attrs m)))
                (MNode a cls (dict_set (_parameters m) key new) cs)) as Hno'.
      { by apply (no_plain_field_put _ h a m _ (MNode a cls ps cs)). }
      pose proof (named_parameters_spec depth _ _ fuel Hu' Hno' Hle) as E.
      simpl in E. by rewrite E, Hset, <- app_assoc.
  - intros old tnew Hold Hnd Hnew Hnonew Hnot Hle'.
    destruct (dict_set_in_place _ key old (root tnew) Hold)
      as (l1 & l2 & Hcs & Hk & Hset).
    destruct t as [a cls ps cs].
    destruct (unfolds_inv _ _ Hu) as (m0 & Hm0 & _ & _ & Hcs0 & _). simpl in *.
    rewrite Hm in Hm0. injection Hm0 as <-.
    rewrite Hcs0 in Hold. destruct (kids_lookup cs key old Hold)
      as (c1 & told & c2 & -> & Hk1 & Hroot).
    pose proof (unfolds_set_child h a cls ps c1 key told c2 m tnew
                  Hu Hm Hk1 Hnew Hnot) as Hu'.
    assert (NoDup (map fst (c1 ++ (key, told) :: c2))) as Hnd'.
    { unfold dict_keys in Hnd. by rewrite Hcs0, map_map in Hnd. }
    destruct (root_children_heads (MNode a cls ps (c1 ++ (key, told) :: c2))
                key c1 told c2 eq_refl Hnd' tnew)
      as (q1 & q2 & Hq & Hq' & Hheads). simpl in Hq'.
    exists l1, l2. eexists _, _.
    exists (bfs_order (q1 ++ ([key], told) :: q2)),
           (bfs_order (q1 ++ ([key], tnew) :: q2)).
    split; [done |]. split; [done |].
    split; [by apply setattr_child |].
    split; [simpl; apply lookup_insert_eq |].
    split; [done |]. split; [done |]. split; [| split].
    + pose proof (named_parameters_spec depth h _ fuel Hu Hno Hle) as E.
      cbn [root tparams] in E. rewrite E.
      unfold all_qualified_params. by rewrite Hq.
    + assert (tsize (MNode a cls ps (c1 ++ (key, tnew) :: c2)) ≤ S fuel) as Hle2.
      { pose proof (tsize_replace_child a cls ps c1 key told c2 tnew) as H.
        simpl in H |- *. lia. }
      assert (no_plain_field "named_children"
                (put_module h a (mkModule (cls_name m)
                                   (dict_set (_modules m) key (root tnew))
                                   (_parameters m) (attrs m)))
                (MNode a cls ps (c1 ++ (key, tnew) :: c2))) as Hno'.
      { apply (no_plain_field_put _ h a m); [done | done |].
        by apply (no_plain_field_replace _ h a cls ps c1 key told). }
      pose proof (named_parameters_spec depth _ _ fuel Hu' Hno' Hle2) as E.
      cbn [root tparams] in E. rewrite E.
      unfold all_qualified_params. by rewrite Hq'.
    + by rewrite !elsewhere_bfs_order.
Qed.

Lemma heap_rebind_unfolds : unfolds heap_rebind tree_rebind.
Proof. unfold_store. Qed.

Lemma heap_rebind_apart : unfolds heap_rebind tree_apart.
Proof. unfold_store. Qed.

Example rebind_parameter_runs :
  Module_named_parameters 1000 2 heap_rebind 0
  = Returns [("w", 0); ("b", 1); ("l1.u", 2); ("l2.v", 3)] ∧
  (h ← found (setattr heap_rebind 0 "w" (VParam 5));
   Module_named_parameters 1000 2 h 0)
  = Returns [("w", 5); ("b", 1); ("l1.u", 2); ("l2.v", 3)] ∧
  (h ← found (setattr heap_rebind 0 "l1" (VModule 3));
   Module_named_parameters 1000 2 h 0)
  = Returns [("w", 0); ("b", 1); ("l1.z", 4); ("l2.v", 3)].
Proof. repeat split; vm_compute; reflexivity. Qed.

Lemma rebinding_in_place_example :
  unfolds heap_rebind tree_rebind ∧
  no_plain_field "named_children" heap_rebind tree_rebind ∧
  mods heap_rebind !! 0
  = Some (mkModule "Module" [("l1", 1); ("l2", 2)] [("w", 0); ("b", 1)]
            [("training", VBool true)]) ∧
  tsize tree_rebind ≤ 5 ∧
  (∃ l1 l2 rest h',
     setattr heap_rebind 0 "w" (VParam 5) = Some h' ∧
     Module_named_parameters 1000 4 heap_rebind 0
     = Returns (l1 ++ ("w", 0) :: l2 ++ rest) ∧
     Module_named_parameters 1000 4 h' 0 = Returns (l1 ++ ("w", 5) :: l2 ++ rest)) ∧
  (∃ h' es es',
     setattr heap_rebind 0 "l1" (VModule 3) = Some h' ∧
     Module_named_parameters 1000 4 heap_rebind 0
     = Returns ([("w", 0); ("b", 1)] ++ concat (map qualified_params es)) ∧
     Module_named_parameters 1000 4 h' 0
     = Returns ([("w", 0); ("b", 1)] ++ concat (map qualified_params es')) ∧
     elsewhere "l1" es = elsewhere "l1" es').
Proof.
  assert (mods heap_rebind !! 0
          = Some (mkModule "Module" [("l1", 1); ("l2", 2)]
                    [("w", 0); ("b", 1)] [("training", VBool true)])) as Hm
    by (vm_compute; reflexivity).
  assert (tsize tree_rebind ≤ 5) as Hle by (vm_compute; lia).
  assert (no_plain_field "named_children" heap_rebind tree_rebind) as Hno
    by methods_in_sight.
  split; [exact heap_rebind_unfolds |]. split; [exact Hno |].
  split; [exact Hm |].
  split; [exact Hle |].
  pose proof (rebinding_in_place 1000 heap_rebind tree_rebind _ "w" 4
                heap_rebind_unfolds Hno Hm Hle) as [Hpar _].
  pose proof (rebinding_in_place 1000 heap_rebind tree_rebind _ "l1" 4
                heap_rebind_unfolds Hno Hm Hle) as [_ Hchild].
  split.
  - destruct (Hpar 0 5 eq_refl) as (l1 & l2 & rest & h' & _ & _ & Hs & Hb & Ha).
    by exists l1, l2, rest, h'.
  - destruct (Hchild 1 tree_apart eq_refl) as
      (l1 & l2 & h' & m' & es & es' & _ & _ & Hs & _ & _ & _ & Hb & Ha & He).
    + apply (bool_decide_unpack _). vm_compute. exact I.
    + exact heap_rebind_apart.
    + methods_in_sight.
    + apply (bool_decide_unpack _). vm_compute. exact I.
    + vm_compute. lia.
    + by exists h', es, es'.
Defined.


(** * Further properties of the code *)

(** ** operators *)

Lemma map_loop {A B} (fn : A → B) acc (ls : list A) :
  foldl (λ new_ls e, new_ls ++ [fn e]) acc ls = acc ++ map fn ls.
Proof.
  revert acc. induction ls as [|e ls IH]; intros acc; simpl.
  - by rewrite app_nil_r.
  - by rewrite IH, <- app_assoc.
Qed.

Lemma operators_map_map {A B} (fn : A → B) (ls : list A) :
  operators.map fn ls = map fn ls.
Proof. unfold operators.map. by rewrite map_loop. Qed.

(** [map(fn)] keeps the length and the order, and maps compose. *)
Theorem map_pointwise {A B C} (fn : A → B) (gn : B → C) (ls : list A) :
  length (operators.map fn ls) = length ls ∧
  (∀ i, operators.map fn ls !! i = fn <$> ls !! i) ∧
  operators.map gn (operators.map fn ls) = operators.map (λ e, gn (fn e)) ls.
Proof.
  rewrite !operators_map_map. split_and!.
  - apply length_map.
  - intros i. apply (list_lookup_fmap fn ls i).
  - apply map_map.
Qed.

(** Negating a list twice gives the list back. *)
Theorem negList_involutive (ls : list Z) :
  operators.negList (operators.negList ls) = ls.
Proof.
  unfold operators.negList. rewrite !operators_map_map, map_map.
  rewrite <- (map_id ls) at 2. apply map_ext. intros x.
  unfold operators.neg. lia.
Qed.

Lemma reduce_app {A B} (fn : A → B → B) start (l1 l2 : list A) :
  operators.reduce fn start (l1 ++ l2)
  = operators.reduce fn (operators.reduce fn start l1) l2.
Proof. apply foldl_app. Qed.

(** [reduce] folds from the left: the first element is combined with
    [start] first, the last element last, as the docstring writes it. *)
Theorem reduce_left_to_right {A B} (fn : A → B → B) (start : B)
    (ls1 ls2 : list A) (e : A) :
  operators.reduce fn start [] = start ∧
  operators.reduce fn start (ls1 ++ [e])
  = fn e (operators.reduce fn start ls1) ∧
  operators.reduce fn start (ls1 ++ ls2)
  = operators.reduce fn (operators.reduce fn start ls1) ls2 ∧
  operators.reduce fn start ls1 = foldr fn start (rev ls1).
Proof.
  split_and!; [done | by rewrite reduce_app | apply reduce_app |].
  induction ls1 as [|x ls1 IH] using rev_ind; [done |].
  rewrite reduce_app, rev_app_distr. simpl. by rewrite IH.
Qed.

Lemma sum_from (start : Z) (ls : list Z) :
  operators.reduce operators.add start ls
  = (start + operators.sum ls)%Z.
Proof.
  unfold operators.sum, operators.reduce. revert start.
  induction ls as [|x ls IH]; intros start; simpl.
  - lia.
  - rewrite IH, (IH (operators.add x 0)). unfold operators.add. lia.
Qed.

Lemma prod_from (start : Z) (ls : list Z) :
  operators.reduce operators.mul start ls
  = (start * operators.prod ls)%Z.
Proof.
  unfold operators.prod, operators.reduce. revert start.
  induction ls as [|x ls IH]; intros start; simpl.
  - lia.
  - rewrite IH, (IH (operators.mul x 1)). unfold operators.mul. lia.
Qed.

Lemma sum_cons x ls : operators.sum (x :: ls) = (x + operators.sum ls)%Z.
Proof.
  unfold operators.sum at 1, operators.reduce. simpl.
  fold (operators.reduce operators.add (operators.add x 0) ls).
  rewrite sum_from. unfold operators.add. lia.
Qed.

Lemma prod_cons x ls : operators.prod (x :: ls) = (x * operators.prod ls)%Z.
Proof.
  unfold operators.prod at 1, operators.reduce. simpl.
  fold (operators.reduce operators.mul (operators.mul x 1) ls).
  rewrite prod_from. unfold operators.mul. lia.
Qed.

(** The sum of no numbers is 0, sums of concatenated lists add up, and the
    order of the numbers does not matter. *)
Theorem sum_additive (ls1 ls2 : list Z) :
  operators.sum [] = 0%Z ∧
  operators.sum (ls1 ++ ls2) = (operators.sum ls1 + operators.sum ls2)%Z ∧
  (ls1 ≡ₚ ls2 → operators.sum ls1 = operators.sum ls2) ∧
  operators.sum (operators.negList ls1) = (- operators.sum ls1)%Z.
Proof.
  split_and!.
  - done.
  - unfold operators.sum at 1. by rewrite reduce_app, sum_from.
  - induction 1 as [|x l l' _ IH|x y l|l l' l'' _ IH1 _ IH2].
    + done.
    + by rewrite !sum_cons, IH.
    + rewrite !sum_cons. lia.
    + congruence.
  - unfold operators.negList. rewrite operators_map_map.
    induction ls1 as [|x ls1 IH]; [done |]. simpl.
    rewrite !sum_cons, IH. unfold operators.neg. lia.
Qed.

(** The product of no numbers is 1, products of concatenated lists
    multiply, and one zero among the numbers makes the product zero. *)
Theorem prod_multiplicative (ls1 ls2 : list Z) :
  operators.prod [] = 1%Z ∧
  operators.prod (ls1 ++ ls2) = (operators.prod ls1 * operators.prod ls2)%Z ∧
  (0%Z ∈ ls1 → operators.prod ls1 = 0%Z).
Proof.
  split_and!.
  - done.
  - unfold operators.prod at 1. by rewrite reduce_app, prod_from.
  - induction ls1 as [|x ls1 IH]; [by intros ?%elem_of_nil |].
    rewrite prod_cons. intros [<-|Hin]%elem_of_cons; [lia |].
    rewrite IH by done. lia.
Qed.

Lemma addLists_zip (ls1 ls2 : list Z) :
  length ls1 = length ls2 →
  operators.addLists ls1 ls2 = Ok (zip_with operators.add ls1 ls2).
Proof.
  intros Hlen. unfold operators.addLists, zipWith.
  by rewrite decide_True, zipWith_loop.
Qed.

(** On lists of equal length [addLists] does not fail, does not depend on
    the order of its arguments, and the sum of its result is the sum of
    the two sums; a list added to its negation gives zeros. *)
Theorem addLists_sums (ls1 ls2 : list Z) :
  length ls1 = length ls2 →
  ∃ ls, operators.addLists ls1 ls2 = Ok ls ∧
        operators.addLists ls2 ls1 = Ok ls ∧
        length ls = length ls1 ∧
        operators.sum ls = (operators.sum ls1 + operators.sum ls2)%Z ∧
        operators.addLists ls1 (operators.negList ls1)
        = Ok (replicate (length ls1) 0%Z).
Proof.
  intros Hlen. exists (zip_with operators.add ls1 ls2).
  split; [by apply addLists_zip |]. split; [| split; [| split]].
  - rewrite addLists_zip by done. f_equal.
    revert ls2 Hlen. induction ls1 as [|x ls1 IH]; intros [|y ls2] Hlen;
      try done. simpl. rewrite (IH ls2) by (simpl in Hlen; lia).
    f_equal. unfold operators.add. lia.
  - rewrite length_zip_with. lia.
  - revert ls2 Hlen. induction ls1 as [|x ls1 IH]; intros [|y ls2] Hlen;
      try done. simpl. rewrite !sum_cons, (IH ls2) by (simpl in Hlen; lia).
    unfold operators.add. lia.
  - unfold operators.negList. rewrite operators_map_map, addLists_zip
      by (by rewrite length_map).
    f_equal. clear. induction ls1 as [|x ls1 IH]; [done |]. simpl.
    rewrite IH. f_equal. unfold operators.add, operators.neg. lia.
Qed.

Lemma addLists_sums_example :
  length [1; 2; 3]%Z = length [10; 20; 30]%Z ∧
  ∃ ls, operators.addLists [1; 2; 3]%Z [10; 20; 30]%Z = Ok ls ∧
        operators.addLists [10; 20; 30]%Z [1; 2; 3]%Z = Ok ls ∧
        length ls = 3 ∧
        operators.sum ls = 66%Z ∧
        operators.addLists [1; 2; 3]%Z (operators.negList [1; 2; 3]%Z)
        = Ok [0; 0; 0]%Z.
Proof.
  split; [reflexivity |].
  exact (addLists_sums [1; 2; 3]%Z [10; 20; 30]%Z eq_refl).
Defined.

(** ** Traversals read the structure only *)









Lemma set_training_steps b h a h' :
  set_training b h a = Some h' → mode_steps b h h'.
Proof.
  intros Hset. destruct (mods h !! a) as [m|] eqn:Hm.
  - destruct (set_training_spec b h a m Hm) as (h1 & _ & Hset1 & _ & _ & _ & Hst).
    congruence.
  - unfold set_training, setattr in Hset. by rewrite Hm in Hset.
Qed.





(** ** train and eval: once more, with sharing, on a cycle *)

Lemma training_inv h a b :
  training h a = Some (AVal (VBool b)) →
  ∃ m, mods h !! a = Some m ∧ dict_get (attrs m) "training" = Some (VBool b).
Proof.
  unfold training. destruct (mods h !! a) as [m|]; [| done]. simpl.
  rewrite training_lookup. intros [= H]. exists m. split; [done |].
  destruct (dict_get (attrs m) "training") as [v|]; [congruence |].
  unfold Module_getattr in H. by repeat case_match.
Qed.

Lemma dict_set_same {V} (d : list (string * V)) k v :
  dict_get d k = Some v → dict_set d k v = d.
Proof.
  induction d as [|[k0 v0] d IH]; simpl; [done |].
  destruct (decide (k0 = k)) as [->|]; [by intros [= ->] |].
  intros H. by rewrite IH.
Qed.

Lemma set_training_same b h a :
  training h a = Some (AVal (VBool b)) → set_training b h a = Some h.
Proof.
  intros (m & Hm & Ht)%training_inv. unfold set_training, setattr.
  rewrite Hm. simpl. rewrite dict_set_same by done.
  destruct h as [ms ps], m as [cls cs prs ats]. unfold put_module. simpl in *.
  by rewrite insert_id.
Qed.

Lemma mode_loop_same depth b h fuel q visited :
  Forall (λ e, unfolds h e.2) q →
  Forall (λ e, no_plain_field "modules" h e.2) q →
  fsize q ≤ fuel →
  (∀ a, a ∈ faddrs q → training h a = Some (AVal (VBool b))) →
  mode_loop depth fuel b h (map (λ e, root e.2) q) visited
  = Returns (h, visited ++ map (λ e, root e.2) (bfs_order q)).
Proof.
  revert q visited.
  induction fuel as [|fuel IH]; intros [|e q] visited Hu Hno Hle Hall.
  - simpl. by rewrite app_nil_r.
  - pose proof (fsize_pos e q). lia.
  - simpl. by rewrite app_nil_r.
  - apply Forall_cons in Hu as [Hue Hu]. apply Forall_cons in Hno as [Hnoe Hno].
    destruct (unfolds_inv _ _ Hue) as (m & Hm & _ & _ & Hcs & _).
    cbn [map mode_loop]. rewrite set_training_same.
    2: { apply Hall. rewrite faddrs_cons. left. }
    cbn [found mbind Outcome_bind]. rewrite Hm. cbn [found mbind Outcome_bind].
    rewrite method_lookup_class;
      [| set_solver | by apply (no_plain_field_root _ h e.2)].
    cbn [raised]. rewrite (roots_children e) by done. rewrite <- map_app, IH.
    + rewrite bfs_order_cons. simpl. by rewrite <- app_assoc.
    + apply Forall_app. split; [done | by apply unfolds_children].
    + apply Forall_app. split; [done | by apply no_plain_field_children].
    + rewrite fsize_step in Hle. lia.
    + intros a Ha. apply Hall. rewrite faddrs_cons, elem_of_cons, elem_of_app.
      rewrite faddrs_app, elem_of_app in Ha. tauto.
Qed.

Lemma set_mode_same depth b h t fuel :
  unfolds h t → no_plain_field "modules" h t → tsize t ≤ S fuel →
  (∀ a, a ∈ taddrs t → training h a = Some (AVal (VBool b))) →
  set_mode depth fuel b h (root t)
  = Returns (h, map (λ e, root e.2) (descendants_bfs t)).
Proof.
  intros Hu Hno Hle Hall.
  destruct (unfolds_inv _ _ Hu) as (m & Hm & _ & _ & Hcs & _).
  unfold set_mode. rewrite set_training_same.
  2: { apply Hall. rewrite taddrs_unfold. left. }
  cbn [found mbind Outcome_bind]. rewrite Hm. cbn [found mbind Outcome_bind].
  rewrite method_lookup_class;
    [| set_solver | by apply (no_plain_field_root _ h t)].
  cbn [raised]. rewrite (roots_children ([], t)) by done.
  apply (mode_loop_same depth b h fuel (children_of ([], t)) []).
  - by apply (unfolds_children h ([], t)).
  - by apply (no_plain_field_children _ h ([], t)).
  - pose proof (fsize_children ([], t)) as H. simpl in H. lia.
  - intros a Ha. apply Hall. rewrite taddrs_unfold, <- descendants_faddrs.
    by right.
Qed.

(** [train()] (and [eval()]) is idempotent: on a finite acyclic store whose
    Modules have no plain field named [modules], a second call returns
    the store the first call left, unchanged. *)
Theorem mode_change_idempotent depth b h t fuel :
  unfolds h t → no_plain_field "modules" h t → tsize t ≤ S fuel →
  ∃ h1 visits, set_mode depth fuel b h (root t) = Returns (h1, visits) ∧
               set_mode depth fuel b h1 (root t) = Returns (h1, visits).
Proof.
  intros Hu Hno Hle.
  destruct (set_mode_spec depth b h t fuel Hu Hno Hle) as (h1 & Hrun & Hst & Hall).
  exists h1, (map (λ e, root e.2) (descendants_bfs t)). split; [done |].
  apply set_mode_same; [by apply (mode_steps_unfolds b h) | | done | done].
  by apply (mode_steps_no_plain_field b h h1).
Qed.

Lemma mode_change_idempotent_levels :
  unfolds heap_levels tree_levels ∧
  no_plain_field "modules" heap_levels tree_levels ∧
  tsize tree_levels ≤ 4 ∧
  ∃ h1 visits, Module_eval 1000 3 heap_levels 0 = Returns (h1, visits) ∧
               Module_eval 1000 3 h1 0 = Returns (h1, visits).
Proof.
  assert (no_plain_field "modules" heap_levels tree_levels) as Hno
    by (apply heap_levels_methods; set_solver).
  split; [exact heap_levels_unfolds |]. split; [exact Hno |].
  split; [vm_compute; lia |].
  exact (mode_change_idempotent 1000 false heap_levels tree_levels 3
           heap_levels_unfolds Hno (le_n 4)).
Defined.

Lemma bfs_order_length q : length (bfs_order q) = fsize q.
Proof.
  induction q as [|e q IH] using queue_ind; [done |].
  rewrite bfs_order_cons, fsize_step. simpl. by rewrite IH.
Qed.

(** On a finite acyclic store in which Modules may be shared and none has
    a plain field named [modules], [train()] and [eval()] still return
    and set every reachable mode; the loop dequeues one Module per path
    from the root, so a Module reached along two paths is dequeued twice. *)
Theorem mode_change_with_sharing depth b h t fuel :
  unfolds h t → no_plain_field "modules" h t → tsize t ≤ S fuel →
  ∃ h' visits, set_mode depth fuel b h (root t) = Returns (h', visits) ∧
               S (length visits) = tsize t ∧
               visits ≡ₚ descendants t ∧
               unfolds h' t ∧
               ∀ a, a ∈ taddrs t → training h' a = Some (AVal (VBool b)).
Proof.
  intros Hu Hno Hle.
  destruct (set_mode_spec depth b h t fuel Hu Hno Hle) as (h' & Hrun & Hst & Hall).
  exists h', (map (λ e, root e.2) (descendants_bfs t)).
  split; [done |]. split; [| split; [apply visits_Permutation | split]].
  - rewrite length_map. unfold descendants_bfs. rewrite bfs_order_length.
    apply (fsize_children ([], t)).
  - by apply (mode_steps_unfolds b h).
  - done.
Qed.

Lemma heap_shared_unfolds : unfolds heap_shared tree_shared.
Proof. unfold_store. Qed.

Lemma mode_change_with_sharing_twice :
  unfolds heap_shared tree_shared ∧
  no_plain_field "modules" heap_shared tree_shared ∧
  tsize tree_shared ≤ 3 ∧
  ∃ h' visits, Module_eval 1000 2 heap_shared 0 = Returns (h', visits) ∧
               visits ≡ₚ [1; 1] ∧
               training h' 1 = Some (AVal (VBool false)).
Proof.
  assert (no_plain_field "modules" heap_shared tree_shared) as Hno
    by methods_in_sight.
  split; [exact heap_shared_unfolds |]. split; [exact Hno |].
  split; [vm_compute; lia |].
  destruct (mode_change_with_sharing 1000 false heap_shared tree_shared 2
              heap_shared_unfolds Hno (le_n 3))
    as (h' & visits & Hrun & _ & Hperm & _ & Hall).
  exists h', visits. split; [exact Hrun |]. split; [exact Hperm |].
  apply Hall. simpl. rewrite !elem_of_cons. tauto.
Defined.

(** *** A cycle *)

Lemma leads_to_cycle_steps b h h' S :
  mode_steps b h h' → leads_to_cycle h S → leads_to_cycle h' S.
Proof.
  intros [_ Hs] Hcyc a Ha. destruct (Hcyc a Ha) as (m & c & Hm & Hc & HS).
  specialize (Hs a). rewrite Hm in Hs. inversion Hs as [? m' (_ & Hmods & _) E1 E2|].
  exists m', c. split; [done |]. split; [| done].
  unfold Module_modules in *. by rewrite Hmods.
Qed.

Lemma mode_loop_cycle depth b fuel h S to_set visited r :
  leads_to_cycle h S → (∃ a, a ∈ to_set ∧ S a) →
  mode_loop depth fuel b h to_set visited ≠ Returns r.
Proof.
  revert h to_set visited. induction fuel as [|fuel IH];
    intros h [|x to_set] visited Hcyc (a & Hin & Ha);
    try (by apply elem_of_nil in Hin); [done |].
  cbn [mode_loop]. destruct (set_training b h x) as [h1|] eqn:Hset; [| done].
  cbn [found mbind Outcome_bind].
  destruct (mods h1 !! x) as [m1|] eqn:Hm1; [| done].
  cbn [found mbind Outcome_bind].
  destruct (method_lookup depth h1 m1 "modules"); [| done]. cbn [raised].
  pose proof (set_training_steps b h x h1 Hset) as Hst.
  pose proof (leads_to_cycle_steps b h h1 S Hst Hcyc) as Hcyc1.
  apply (IH h1 _ _ Hcyc1). apply elem_of_cons in Hin as [->|Hin].
  - destruct (Hcyc1 x Ha) as (m & c & Hm & Hc & HS).
    rewrite Hm1 in Hm. injection Hm as <-.
    exists c. split; [| done]. apply elem_of_app. by right.
  - exists a. split; [| done]. apply elem_of_app. by left.
Qed.

Lemma named_parameters_loop_cycle depth fuel h S to_add params r :
  leads_to_cycle h S → (∃ e, e ∈ to_add ∧ S e.2) →
  named_parameters_loop depth fuel h to_add params ≠ Returns r.
Proof.
  intros Hcyc. revert to_add params. induction fuel as [|fuel IH];
    intros [|[n x] to_add] params (e & Hin & He);
    try (by apply elem_of_nil in Hin); [done |].
  cbn [named_parameters_loop]. destruct (mods h !! x) as [m|] eqn:Hm; [| done].
  cbn [found mbind Outcome_bind].
  destruct (method_lookup depth h m "named_children"); [| done]. cbn [raised].
  apply IH. apply elem_of_cons in Hin as [->|Hin].
  - simpl in He. destruct (Hcyc x He) as (m' & c & Hm' & Hc & HS).
    rewrite Hm in Hm'. injection Hm' as <-.
    unfold Module_modules, dict_values in Hc.
    apply list_elem_of_In, in_map_iff in Hc as ([k c'] & Hk & Hc).
    simpl in Hk. subst c'.
    exists (dotted n k, c). split; [| done]. apply elem_of_app. right.
    apply list_elem_of_In, in_map_iff. by exists (k, c).
  - exists e. split; [| done]. apply elem_of_app. by left.
Qed.

Lemma parameters_loop_cycle depth fuel h S to_add params r :
  leads_to_cycle h S → (∃ a, a ∈ to_add ∧ S a) →
  parameters_loop depth fuel h to_add params ≠ Returns r.
Proof.
  intros Hcyc. revert to_add params. induction fuel as [|fuel IH];
    intros [|x to_add] params (a & Hin & Ha);
    try (by apply elem_of_nil in Hin); [done |].
  cbn [parameters_loop]. destruct (mods h !! x) as [m|] eqn:Hm; [| done].
  cbn [found mbind Outcome_bind].
  destruct (method_lookup depth h m "modules"); [| done]. cbn [raised].
  apply IH. apply elem_of_cons in Hin as [->|Hin].
  - destruct (Hcyc x Ha) as (m' & c & Hm' & Hc & HS).
    rewrite Hm in Hm'. injection Hm' as <-.
    exists c. split; [| done]. apply elem_of_app. by right.
  - exists a. split; [| done]. apply elem_of_app. by left.
Qed.

Lemma mapM_None {A B} (f : A → option B) (l : list A) x :
  x ∈ l → f x = None → mapM f l = None.
Proof.
  intros Hin Hx. induction l as [|y l IH]; [by apply elem_of_nil in Hin |].
  cbn [mapM]. apply elem_of_cons in Hin as [<-|Hin].
  - by rewrite Hx.
  - rewrite (IH Hin). by destruct (f y).
Qed.

(** On a store with a cycle below [self] none of the traversals returns,
    however many iterations are allowed: [train()], [eval()],
    [named_parameters()] and [parameters()] loop for ever (or raise on the
    way), and [__repr__] exceeds every recursion depth. *)
Theorem cycle_never_returns h S self :
  leads_to_cycle h S → S self →
  ∀ depth n,
    (∀ r, Module_train depth n h self ≠ Returns r) ∧
    (∀ r, Module_eval depth n h self ≠ Returns r) ∧
    (∀ r, Module_named_parameters depth n h self ≠ Returns r) ∧
    (∀ r, Module_parameters depth n h self ≠ Returns r) ∧
    Module_repr n h self = None.
Proof.
  intros Hcyc Hself depth n.
  assert (∀ b r, set_mode depth n b h self ≠ Returns r) as Hmode.
  { intros b r. unfold set_mode.
    destruct (set_training b h self) as [h1|] eqn:Hset; [| done].
    cbn [found mbind Outcome_bind].
    destruct (mods h1 !! self) as [m1|] eqn:Hm1; [| done].
    cbn [found mbind Outcome_bind].
    destruct (method_lookup depth h1 m1 "modules"); [| done]. cbn [raised].
    pose proof (leads_to_cycle_steps b h h1 S
                  (set_training_steps b h self h1 Hset) Hcyc) as Hcyc1.
    apply (mode_loop_cycle depth b n h1 S); [done |].
    destruct (Hcyc1 self Hself) as (m & c & Hm & Hc & HS).
    rewrite Hm1 in Hm. injection Hm as <-. by exists c. }
  split; [apply Hmode |]. split; [apply Hmode |]. split; [| split].
  - intros r. unfold Module_named_parameters.
    destruct (Hcyc self Hself) as (m & c & Hm & Hc & HS). rewrite Hm.
    cbn [found mbind Outcome_bind].
    destruct (method_lookup depth h m "named_children"); [| done]. cbn [raised].
    apply (named_parameters_loop_cycle depth n h S); [done |].
    unfold Module_modules, dict_values in Hc.
    apply list_elem_of_In, in_map_iff in Hc as ([k c'] & Hk & Hc).
    simpl in Hk. subst c'. exists (k, c). split; [| done].
    by apply list_elem_of_In.
  - intros r. unfold Module_parameters.
    destruct (Hcyc self Hself) as (m & c & Hm & Hc & HS). rewrite Hm.
    cbn [found mbind Outcome_bind].
    destruct (method_lookup depth h m "modules"); [| done]. cbn [raised].
    apply (parameters_loop_cycle depth n h S); [done |]. by exists c.
  - clear Hmode. revert self Hself.
    induction n as [|n IH]; intros self Hself; [done |].
    cbn [Module_repr]. destruct (Hcyc self Hself) as (m & c & Hm & Hc & HS).
    rewrite Hm. cbn [mbind option_bind].
    unfold Module_modules, dict_values in Hc.
    apply list_elem_of_In, in_map_iff in Hc as ([k c'] & Hk & Hc).
    simpl in Hk. subst c'.
    rewrite (mapM_None _ (_modules m) (k, c)); [done | by apply list_elem_of_In |].
    by rewrite (IH c HS).
Qed.

(** [m = Module(); m.me = m]: a Module that is its own child. *)
Lemma cycle_never_returns_self :
  leads_to_cycle heap_loop (λ a, a = 0) ∧
  ∀ depth n,
    (∀ r, Module_train depth n heap_loop 0 ≠ Returns r) ∧
    (∀ r, Module_eval depth n heap_loop 0 ≠ Returns r) ∧
    (∀ r, Module_named_parameters depth n heap_loop 0 ≠ Returns r) ∧
    (∀ r, Module_parameters depth n heap_loop 0 ≠ Returns r) ∧
    Module_repr n heap_loop 0 = None.
Proof.
  assert (leads_to_cycle heap_loop (λ a, a = 0)) as Hcyc.
  { intros a ->. eexists _, 0. split; [vm_compute; reflexivity |].
    split; [| done]. simpl. left. }
  split; [exact Hcyc |].
  exact (cycle_never_returns heap_loop (λ a, a = 0) 0 Hcyc eq_refl).
Defined.

(** ** parameters: nothing lost, nothing added *)

Lemma qualified_params_values e :
  map snd (qualified_params e) = map snd (tparams e.2).
Proof. unfold qualified_params. rewrite map_map. by apply map_ext. Qed.

Lemma tree_parameters_unfold t :
  tree_parameters t
  = map snd (tparams t)
      ++ concat (map (λ e, tree_parameters e.2) (children_of ([], t))).
Proof.
  destruct t as [a cls ps cs]. unfold children_of. simpl.
  by rewrite map_map.
Qed.

Lemma children_parameters e :
  concat (map (λ c, tree_parameters c.2) (children_of e))
  = concat (map (λ nc, tree_parameters nc.2) (kids e.2)).
Proof. unfold children_of. by rewrite map_map. Qed.

Lemma bfs_order_parameters q :
  concat (map (λ e, map snd (qualified_params e)) (bfs_order q))
  ≡ₚ concat (map (λ e, tree_parameters e.2) q).
Proof.
  induction q as [|e q IH] using queue_ind; [done |].
  rewrite bfs_order_cons. cbn [map concat]. rewrite IH, map_app, concat_app.
  rewrite qualified_params_values, children_parameters.
  destruct e as [path [a cls ps cs]]. simpl.
  rewrite <- !app_assoc. apply Permutation_app_head, Permutation_app_comm.
Qed.

(** On a finite acyclic store whose Modules have no plain field named
    [modules] or [named_children], [parameters()] returns every Parameter
    held anywhere below the Module, as often as it is held and no others:
    the result is a rearrangement of the Parameters collected Module by
    Module, and [named_parameters()] has one pair for each of them. *)
Theorem parameters_complete depth h t fuel :
  unfolds h t →
  no_plain_field "modules" h t → no_plain_field "named_children" h t →
  tsize t ≤ S fuel →
  ∃ ps named, Module_parameters depth fuel h (root t) = Returns ps ∧
              Module_named_parameters depth fuel h (root t) = Returns named ∧
              ps ≡ₚ tree_parameters t ∧
              length named = length (tree_parameters t) ∧
              ∀ p, p ∈ ps ↔ p ∈ tree_parameters t.
Proof.
  intros Hu Hmod Hnc Hle.
  pose proof (named_parameters_spec depth h t fuel Hu Hnc Hle) as Hnamed.
  pose proof (parameters_spec depth h t fuel Hu Hmod Hle) as Hps.
  rewrite all_params_qualified, <- map_app in Hps.
  assert (map snd (tparams t ++ all_qualified_params (children_of ([], t)))
          ≡ₚ tree_parameters t) as Hperm.
  { rewrite map_app, tree_parameters_unfold. apply Permutation_app_head.
    unfold all_qualified_params. rewrite concat_map, map_map.
    apply bfs_order_parameters. }
  eexists _, _. split; [exact Hps |].
  split; [exact Hnamed |]. split; [exact Hperm |]. split.
  - rewrite <- (length_map snd). by rewrite Hperm.
  - intros p. by rewrite Hperm.
Qed.

Lemma parameters_complete_shared :
  unfolds heap_shared tree_shared ∧
  no_plain_field "modules" heap_shared tree_shared ∧
  no_plain_field "named_children" heap_shared tree_shared ∧
  tsize tree_shared ≤ 3 ∧
  ∃ ps named, Module_parameters 1000 2 heap_shared 0 = Returns ps ∧
              Module_named_parameters 1000 2 heap_shared 0 = Returns named ∧
              ps ≡ₚ [0; 0] ∧ length named = 2.
Proof.
  assert (no_plain_field "modules" heap_shared tree_shared) as Hmod
    by methods_in_sight.
  assert (no_plain_field "named_children" heap_shared tree_shared) as Hnc
    by methods_in_sight.
  split; [exact heap_shared_unfolds |]. split; [exact Hmod |].
  split; [exact Hnc |]. split; [vm_compute; lia |].
  destruct (parameters_complete 1000 heap_shared tree_shared 2
              heap_shared_unfolds Hmod Hnc (le_n 3))
    as (ps & named & Hps & Hnamed & Hperm & Hlen & _).
  by exists ps, named.
Defined.

(** ** add_parameter and update, seen through the traversals *)

Lemma unfolds_put_parameter h p o t :
  unfolds h t → unfolds (put_parameter h p o) t.
Proof.
  induction t as [a cls ps cs IH] using MTree_rect'.
  intros (m & Hm & Hcls & Hps & Hcs & Hk)%unfolds_inv. simpl in *.
  eapply unfolds_node; [exact Hm | done.. |].
  rewrite Forall_forall in IH, Hk |- *. auto.
Qed.

Lemma no_plain_field_same_addrs key h h' t t' :
  mods h' = mods h → taddrs t' = taddrs t →
  no_plain_field key h t → no_plain_field key h' t'.
Proof.
  intros Hm Ht Hno a m Ha Hma. rewrite Ht in Ha. rewrite Hm in Hma.
  by apply (Hno a m).
Qed.

(** On a finite acyclic store whose Modules have no plain field named
    [modules] or [named_children], [add_parameter(k, v)] with a value that
    is not a Module returns a new Parameter named [k].  Afterwards
    [named_parameters()] lists it under [k] among the Module's own entries:
    after them if [k] was not among their names, else in the place of the
    earlier entry under [k]; the other own entries and all entries of
    descendants are as before and in the same places.  [parameters()]
    returns the same objects without their names. *)
Theorem add_parameter_listed depth d h t k v fuel :
  unfolds h t →
  no_plain_field "modules" h t → no_plain_field "named_children" h t →
  tsize t ≤ S fuel → (∀ a, v ≠ VModule a) →
  ∃ p h' o rest named,
    Module_add_parameter depth h (root t) k v = Ok (p, h') ∧
    pars h !! p = None ∧ pars h' !! p = Some o ∧ name o = Some k ∧
    Module_named_parameters d fuel h (root t) = Returns (tparams t ++ rest) ∧
    Module_named_parameters d fuel h' (root t) = Returns named ∧
    Module_parameters d fuel h' (root t) = Returns (map snd named) ∧
    (k ∉ dict_keys (tparams t) → named = (tparams t ++ [(k, p)]) ++ rest) ∧
    (∀ l1 old l2, tparams t = l1 ++ (k, old) :: l2 → k ∉ dict_keys l1 →
                  named = (l1 ++ (k, p) :: l2) ++ rest) ∧
    (k, p) ∈ named.
Proof.
  intros Hu Hmod Hnc Hle Hv.
  destruct (unfolds_inv _ _ Hu) as (m & Hm & _ & Hps & _).
  destruct (add_parameter_stores depth h (root t) m k v Hv Hm)
    as (v' & h' & Hadd & Hfresh & Hp & _ & Hm').
  cbv zeta in Hadd. set (p := fresh (dom (pars h))) in *.
  assert (h' = put_module (put_parameter h p (mkParameter v' (Some k))) (root t)
                 (mkModule (cls_name m) (_modules m)
                    (dict_set (_parameters m) k p) (attrs m))) as Hh'.
  { unfold Module_add_parameter, Parameter_new, Parameter_init in Hadd.
    destruct (mark_trainable_spec depth h v (Some k) Hv) as (v0 & Hmark & _).
    rewrite Hmark in Hadd. simpl in Hadd. rewrite Hm in Hadd.
    fold p in Hadd. injection Hadd as <-.
    simpl in Hp. rewrite lookup_insert_eq in Hp. by injection Hp as ->. }
  destruct t as [a cls ps cs]. cbn [root tparams] in *.
  assert (unfolds h' (MNode a cls (dict_set ps k p) cs)) as Hu'.
  { rewrite Hh', <- Hps.
    apply (unfolds_set_parameters (put_parameter h p (mkParameter v' (Some k)))
             a cls ps cs m); [by apply unfolds_put_parameter | done]. }
  assert (∀ key, no_plain_field key h (MNode a cls ps cs) →
                 no_plain_field key h' (MNode a cls (dict_set ps k p) cs))
    as Hkeep.
  { intros key Hno. rewrite Hh'.
    apply (no_plain_field_put key _ a m); [done | done |].
    by apply (no_plain_field_same_addrs key h _ (MNode a cls ps cs)). }
  pose proof (named_parameters_spec d h _ fuel Hu Hnc Hle) as E.
  pose proof (named_parameters_spec d h' _ fuel Hu' (Hkeep _ Hnc) Hle) as E'.
  pose proof (parameters_spec d h' _ fuel Hu' (Hkeep _ Hmod) Hle) as P'.
  rewrite all_params_qualified, <- map_app in P'.
  cbn [root tparams] in E, E', P'.
  exists p, h', (mkParameter v' (Some k)),
    (all_qualified_params (children_of ([], MNode a cls ps cs))).
  eexists. split; [done |]. split; [done |]. split; [done |].
  split; [done |]. split; [exact E |]. split; [exact E' |].
  split; [exact P' |]. split; [| split].
  - intros Hk%dict_get_None. by rewrite (dict_set_new ps k p Hk).
  - intros l1 old l2 -> Hk. by rewrite (dict_set_first l1 k old l2 p Hk).
  - apply elem_of_app. left. apply dict_get_Some_elem, dict_get_set_eq.
Qed.

(** [root.add_parameter("w", 3)] on the root with child [sub]. *)
Lemma add_parameter_listed_sub :
  unfolds heap_sub tree_sub ∧
  no_plain_field "modules" heap_sub tree_sub ∧
  no_plain_field "named_children" heap_sub tree_sub ∧
  tsize tree_sub ≤ 2 ∧ (∀ a, VNum 3 ≠ VModule a) ∧
  ∃ p h', Module_add_parameter 0 heap_sub 0 "w" (VNum 3) = Ok (p, h') ∧
          Module_named_parameters 1000 1 heap_sub 0 = Returns [("sub.p", 0)] ∧
          Module_named_parameters 1000 1 h' 0
          = Returns [("w", p); ("sub.p", 0)] ∧
          Module_parameters 1000 1 h' 0 = Returns [p; 0].
Proof.
  assert (no_plain_field "modules" heap_sub tree_sub) as Hmod
    by (apply heap_sub_methods; set_solver).
  assert (no_plain_field "named_children" heap_sub tree_sub) as Hnc
    by (apply heap_sub_methods; set_solver).
  split; [exact heap_sub_unfolds |]. split; [exact Hmod |].
  split; [exact Hnc |]. split; [vm_compute; lia |]. split; [discriminate |].
  destruct (add_parameter_listed 0 1000 heap_sub tree_sub "w" (VNum 3) 1
              heap_sub_unfolds Hmod Hnc (le_n 2))
    as (p & h' & o & rest & named & Hadd & _ & _ & _ & Hb & Ha & Hps & Hnew & _).
  { discriminate. }
  exists p, h'. split; [exact Hadd |].
  assert (rest = [("sub.p", 0)]) as ->.
  { pose proof Hb as E. vm_compute in E. by injection E as <-. }
  split; [exact Hb |].
  assert (named = [("w", p); ("sub.p", 0)]) as ->.
  { apply Hnew. apply (bool_decide_unpack _). vm_compute. exact I. }
  by split.
Defined.

(** The traversals read Modules only. *)
Lemma call_value_same_mods depth h h' f :
  mods h' = mods h → call_value depth h' f = call_value depth h f.
Proof.
  intros Hm. revert f. induction depth as [|depth IH]; intros f.
  - by destruct f as [[]| | |].
  - destruct f as [[| | | | | |a]| | |]; try done. cbn [call_value].
    rewrite Hm. destruct (mods h !! a); [apply IH | done].
Qed.

Lemma method_lookup_same_mods depth h h' m key :
  mods h' = mods h → method_lookup depth h' m key = method_lookup depth h m key.
Proof.
  intros Hm. unfold method_lookup.
  destruct (Module_getattribute m key); [| | | done];
    by rewrite (call_value_same_mods depth h h').
Qed.

Lemma named_parameters_loop_same_mods depth fuel h h' q params :
  mods h' = mods h →
  named_parameters_loop depth fuel h' q params
  = named_parameters_loop depth fuel h q params.
Proof.
  intros Hm. revert q params.
  induction fuel as [|fuel IH]; intros [|[n a] q] params; try done.
  cbn [named_parameters_loop]. rewrite Hm. destruct (mods h !! a); [| done].
  cbn [found mbind Outcome_bind].
  rewrite (method_lookup_same_mods depth h h') by done.
  destruct (method_lookup depth h _ _); [| done]. cbn [raised]. apply IH.
Qed.

Lemma parameters_loop_same_mods depth fuel h h' q params :
  mods h' = mods h →
  parameters_loop depth fuel h' q params = parameters_loop depth fuel h q params.
Proof.
  intros Hm. revert q params.
  induction fuel as [|fuel IH]; intros [|a q] params; try done.
  cbn [parameters_loop]. rewrite Hm. destruct (mods h !! a); [| done].
  cbn [found mbind Outcome_bind].
  rewrite (method_lookup_same_mods depth h h') by done.
  destruct (method_lookup depth h _ _); [| done]. cbn [raised]. apply IH.
Qed.

(** [update(x)] with a value that is not a Module keeps the Parameter's
    identity and name and replaces its payload; no other Parameter and no
    Module changes, so every [named_parameters()] and [parameters()] lists
    the same objects in the same places as before. *)
Theorem update_keeps_identity depth h self o x :
  pars h !! self = Some o → (∀ a, x ≠ VModule a) →
  ∃ h' v, Parameter_update depth h self x = Ok h' ∧
          pars h' !! self = Some (mkParameter v (name o)) ∧
          payload_after x (name o) v ∧
          (∀ p, p ≠ self → pars h' !! p = pars h !! p) ∧
          mods h' = mods h ∧
          ∀ d fuel a, Module_named_parameters d fuel h' a
                      = Module_named_parameters d fuel h a ∧
                      Module_parameters d fuel h' a
                      = Module_parameters d fuel h a.
Proof.
  intros Ho Hx.
  destruct (mark_trainable_spec depth h x (name o) Hx) as (v & Hmark & Hafter).
  exists (put_parameter h self (mkParameter v (name o))), v.
  split; [unfold Parameter_update; by rewrite Ho, Hmark |].
  split; [apply lookup_insert_eq |]. split; [done |].
  split; [intros p Hp; simpl; by rewrite lookup_insert_ne |].
  split; [done |].
  intros d fuel a. set (h' := put_parameter h self (mkParameter v (name o))).
  assert (mods h' = mods h) as Hm by done. split.
  - unfold Module_named_parameters. rewrite Hm.
    destruct (mods h !! a); [| done]. cbn [found mbind Outcome_bind].
    rewrite (method_lookup_same_mods d h h') by done.
    destruct (method_lookup d h _ _); [| done]. cbn [raised].
    by apply named_parameters_loop_same_mods.
  - unfold Module_parameters. rewrite Hm.
    destruct (mods h !! a); [| done]. cbn [found mbind Outcome_bind].
    rewrite (method_lookup_same_mods d h h') by done.
    destruct (method_lookup d h _ _); [| done]. cbn [raised].
    by apply parameters_loop_same_mods.
Qed.

(** [update(7)] on the Parameter of value 5. *)
Lemma update_keeps_identity_sub :
  pars heap_sub !! 0 = Some (mkParameter (VNum 5) None) ∧
  (∀ a, VNum 7 ≠ VModule a) ∧
  ∃ h', Parameter_update 0 heap_sub 0 (VNum 7) = Ok h' ∧
        pars h' !! 0 = Some (mkParameter (VNum 7) None) ∧
        Module_named_parameters 1000 1 h' 0 = Returns [("sub.p", 0)].
Proof.
  split; [reflexivity |]. split; [discriminate |].
  destruct (update_keeps_identity 0 heap_sub 0 (mkParameter (VNum 5) None)
              (VNum 7) eq_refl)
    as (h' & v & Hup & Hp & [_ Hv] & _ & _ & Hsame).
  { discriminate. }
  exists h'. split; [exact Hup |]. split.
  - etrans; [exact Hp |]. by rewrite (Hv eq_refl).
  - etrans; [exact (proj1 (Hsame 1000 1 0)) |]. reflexivity.
Defined.

(** ** Binding a name and reading it back *)

Lemma plain_lookup_field m key v :
  key ∉ reserved_keys → dict_get (attrs m) key = Some v →
  plain_lookup m key = Some (AVal v).
Proof.
  intros Hk Hv. unfold plain_lookup.
  rewrite !decide_False, Hv; [done | |]; intros ->; apply Hk;
    unfold reserved_keys; simpl; rewrite !elem_of_cons; tauto.
Qed.

Lemma plain_lookup_stores m m' key :
  attrs m' = attrs m → key ≠ "_modules" → key ≠ "_parameters" →
  plain_lookup m' key = plain_lookup m key.
Proof.
  intros Ha H1 H2. unfold plain_lookup. by rewrite !decide_False, Ha.
Qed.

(** What [m.key] reads after [m.key = val]: a plain value is read back
    whatever the stores hold; a Parameter is read back unless a plain field
    or a name of the class hides it, and then the read is what it was; a
    Module is read back unless hidden in that way or by a Parameter of the
    same name.  Reads of other names are not affected. *)
Theorem bind_then_read m key val m' :
  Module_setattr m key val = Some m' →
  ((∀ p, val ≠ VParam p) → (∀ a, val ≠ VModule a) →
   Module_getattribute m' key = AVal val) ∧
  (∀ p, val = VParam p →
     (plain_lookup m key = None → Module_getattribute m' key = AVal (VParam p)) ∧
     (∀ v, key ∉ reserved_keys → dict_get (attrs m) key = Some v →
           Module_getattribute m' key = AVal v)) ∧
  (∀ a, val = VModule a →
     (plain_lookup m key = None → dict_get (_parameters m) key = None →
      Module_getattribute m' key = AVal (VModule a)) ∧
     (∀ p, plain_lookup m key = None → dict_get (_parameters m) key = Some p →
           Module_getattribute m' key = AVal (VParam p))) ∧
  (∀ key', key' ≠ key → key' ≠ "_modules" → key' ≠ "_parameters" →
           Module_getattribute m' key' = Module_getattribute m key').
Proof.
  intros Hset. split_and!.
  - intros Hp Ha. unfold Module_getattribute.
    assert ((key ∉ reserved_keys) ∧
            m' = mkModule (cls_name m) (_modules m) (_parameters m)
                   (dict_set (attrs m) key val)) as [Hk ->].
    { destruct val; simpl in Hset; try (by destruct (Hp p));
        try (by destruct (Ha a)); case_bool_decide; try done;
        by injection Hset as <-. }
    rewrite (plain_lookup_field _ key val); [done | done |].
    apply dict_get_set_eq.
  - intros p ->. injection Hset as <-. split.
    + intros Hplain. unfold Module_getattribute.
      assert (key ≠ "_modules" ∧ key ≠ "_parameters") as [H1 H2].
      { unfold plain_lookup in Hplain. by repeat case_decide. }
      rewrite (plain_lookup_stores m) by done. rewrite Hplain.
      unfold Module_getattr. simpl. by rewrite dict_get_set_eq.
    + intros v Hk Hv. unfold Module_getattribute.
      by rewrite (plain_lookup_field _ key v).
  - intros a ->. injection Hset as <-. split.
    + intros Hplain Hpar. unfold Module_getattribute.
      assert (key ≠ "_modules" ∧ key ≠ "_parameters") as [H1 H2].
      { unfold plain_lookup in Hplain. by repeat case_decide. }
      rewrite (plain_lookup_stores m) by done. rewrite Hplain.
      unfold Module_getattr. simpl. by rewrite Hpar, dict_get_set_eq.
    + intros p Hplain Hpar. unfold Module_getattribute.
      assert (key ≠ "_modules" ∧ key ≠ "_parameters") as [H1 H2].
      { unfold plain_lookup in Hplain. by repeat case_decide. }
      rewrite (plain_lookup_stores m) by done. rewrite Hplain.
      unfold Module_getattr. simpl. by rewrite Hpar.
  - intros key' Hne H1 H2. unfold Module_getattribute, Module_getattr, plain_lookup.
    rewrite !decide_False by done.
    destruct val; simpl in Hset; try case_bool_decide; try done;
      injection Hset as <-; simpl; by rewrite ?dict_get_set_ne.
Qed.

(** [m.training = Parameter(...)] on a new Module: the Parameter is
    stored, and [m.training] still reads True. *)
Lemma bind_then_read_training :
  Module_setattr (Module_init "Module") "training" (VParam 0)
  = Some (mkModule "Module" [] [("training", 0)] [("training", VBool true)]) ∧
  Module_getattribute
    (mkModule "Module" [] [("training", 0)] [("training", VBool true)])
    "training"
  = AVal (VBool true).
Proof.
  split; [reflexivity |].
  apply (proj1 (proj2 (bind_then_read (Module_init "Module") "training"
                         (VParam 0) _ eq_refl)) 0 eq_refl).
  - apply (bool_decide_unpack _). vm_compute. exact I.
  - reflexivity.
Defined.

(** ** Calling a Module, and a new Module *)

(** [Module.__call__] hands over to [self.forward]; on an instance of
    [Module] itself (the class defines no [forward]) that has nothing under
    the name [forward] in its fields and stores, the read gives None and the
    call raises TypeError. *)
Theorem call_without_forward depth h self m :
  mods h !! self = Some m →
  cls_name m = "Module" →
  "forward" ∉ dict_keys (attrs m) →
  "forward" ∉ dict_keys (_parameters m) →
  "forward" ∉ dict_keys (_modules m) →
  Module_call (S depth) h self = Raise TypeError.
Proof.
  intros Hm _ Ha%dict_get_None Hp%dict_get_None Hc%dict_get_None.
  unfold Module_call. simpl. rewrite Hm.
  unfold Module_getattribute, plain_lookup, Module_getattr.
  rewrite !decide_False by done. rewrite Ha, Hp, Hc.
  rewrite bool_decide_eq_false_2; [by destruct depth |].
  apply (bool_decide_unpack _). vm_compute. exact I.
Qed.

(** [Module()()] on the child of the root with child [sub]. *)
Lemma call_without_forward_leaf :
  mods heap_sub !! 1
  = Some (mkModule "Module" [] [("p", 0)] [("training", VBool true)]) ∧
  Module_call 1000 heap_sub 1 = Raise TypeError.
Proof.
  split; [vm_compute; reflexivity |].
  apply (call_without_forward 999 heap_sub 1
           (mkModule "Module" [] [("p", 0)] [("training", VBool true)]));
    [vm_compute; reflexivity | reflexivity | ..];
    apply (bool_decide_unpack _); vm_compute; exact I.
Defined.

(** A Module just constructed is in training mode, has no children and no
    parameters, and renders as its class name with ["()"]; it is a new
    object and the Modules already in the store are as they were. *)
Theorem new_module_is_empty h cls :
  let '(a, h') := Module_new h cls in
  mods h !! a = None ∧
  training h' a = Some (AVal (VBool true)) ∧
  (∃ m, mods h' !! a = Some m ∧ Module_modules m = [] ∧
        Module_named_children m = []) ∧
  (∀ d n, Module_named_parameters d n h' a = Returns [] ∧
          Module_parameters d n h' a = Returns [] ∧
          Module_train d n h' a = Returns (h', []) ∧
          Module_repr (S n) h' a = Some (cls +:+ "()")) ∧
  (∀ b, b ≠ a → mods h' !! b = mods h !! b) ∧ pars h' = pars h.
Proof.
  unfold Module_new. set (a := fresh (dom (mods h))).
  assert (mods (put_module h a (Module_init cls)) !! a
          = Some (Module_init cls)) as Hm by apply lookup_insert_eq.
  split; [apply not_elem_of_dom, is_fresh |].
  split; [by apply (training_Some _ _ (Module_init cls)) |].
  split; [by exists (Module_init cls) |]. split; [| split; [| done]].
  - intros d n.
    assert (∀ key, key ∈ ["modules"; "named_children"] →
              method_lookup d (put_module h a (Module_init cls))
                (Module_init cls) key = Ok tt) as Hlook.
    { intros key Hkey. apply method_lookup_class; [done |].
      simpl. rewrite !elem_of_cons, elem_of_nil in Hkey.
      rewrite elem_of_cons, elem_of_nil.
      destruct Hkey as [->|[->|[]]]; intros [?|[]]; done. }
    split; [| split; [| split]].
    + unfold Module_named_parameters. rewrite Hm. cbn [found mbind Outcome_bind].
      rewrite Hlook by set_solver. by destruct n.
    + unfold Module_parameters. rewrite Hm. cbn [found mbind Outcome_bind].
      rewrite Hlook by set_solver. by destruct n.
    + apply (set_mode_same d true _ (MNode a cls [] []) n).
      * by eapply unfolds_node; [exact Hm | ..].
      * intros x mx [->|Hx%elem_of_nil]%elem_of_cons; [| done].
        rewrite Hm. intros [= <-]. simpl.
        rewrite elem_of_cons, elem_of_nil. intros [?|[]]; done.
      * simpl. lia.
      * intros x [->|Hx%elem_of_nil]%elem_of_cons; [| done].
        by apply (training_Some _ _ (Module_init cls)).
    + cbn [Module_repr]. rewrite Hm. simpl. by rewrite string_app_assoc.
  - intros b Hb. simpl. by rewrite lookup_insert_ne.
Qed.